(** * real2sim/main_inference.py: episode rollout and evaluation sweep

    A shallow embedding of [main], [parse_range_tuple] and the sweep loop of
    [real2sim/main_inference.py], with the properties of the rollout
    controller, the grid generator and the artifact namer.

    Conventions.
    - Python [float] and NumPy [float64] are binary64: they are Rocq's
      primitive floats.  Python [int] is [Z].
    - A 1-D NumPy array is the list of its elements (memory is unbounded).
    - A call that may raise returns a [res]; a loop that may not finish is
      run with fuel and answers [Spin] when the fuel is gone.
    - The policy, the environment and the episode statistics rules live in
      other modules; they are the variables of the sections below. *)

From Stdlib Require Import ZArith List Bool Lia.
From Stdlib Require String Ascii.
From Stdlib Require Import Floats.
Import ListNotations.

Set Implicit Arguments.
Set Warnings "-inexact-float".

(* ------------------------------------------------------------------ *)
(** ** Results of fallible code *)

Inductive exn : Type :=
| IndexError
| ValueError
| OverflowError
| NameError
| TypeError
| AttributeError
| NotImplementedError.

Inductive res (A : Type) : Type :=
| Ok (a : A)
| Raise (e : exn)
| Spin.

Arguments Ok {A} a.
Arguments Raise {A} e.
Arguments Spin {A}.

Definition bind {A B : Type} (c : res A) (k : A -> res B) : res B :=
  match c with
  | Ok a => k a
  | Raise e => Raise e
  | Spin => Spin
  end.

Declare Scope res_scope.
Delimit Scope res_scope with res.
Notation "x <- c ;; k" := (bind c (fun x => k))
  (at level 61, c at next level, right associativity) : res_scope.
Open Scope res_scope.

Lemma bind_Ok_inv (A B : Type) (c : res A) (k : A -> res B) (b : B) :
  bind c k = Ok b -> exists a, c = Ok a /\ k a = Ok b.
Proof. destruct c as [a| |]; simpl; intros H; try discriminate; eauto. Qed.

(** [xs[i]] for a non-negative literal index. *)
Definition getitem {A : Type} (xs : list A) (i : nat) : res A :=
  match nth_error xs i with
  | Some x => Ok x
  | None => Raise IndexError
  end.

(* ------------------------------------------------------------------ *)
(** ** Numbers *)

Open Scope Z_scope.

(** [int(x)] on a float: truncation toward zero; [ValueError] on NaN,
    [OverflowError] on an infinity. *)
Definition py_int (x : float) : res Z :=
  match Prim2SF x with
  | S754_zero _ => Ok 0
  | S754_infinity _ => Raise OverflowError
  | S754_nan => Raise ValueError
  | S754_finite s m e =>
      let a := Z.shiftl (Zpos m) e in
      Ok (if s then - a else a)
  end.

(** The float nearest to an integer (round to nearest even). *)
Definition Z2float (z : Z) : float :=
  SF2Prim (binary_normalize prec emax z 0 false).

(* ------------------------------------------------------------------ *)
(** ** numpy.linspace and parse_range_tuple *)

Module Np.

(** [np.arange(0, num)] as floats. *)
Definition arange (num : Z) : list float :=
  map (fun i => Z2float (Z.of_nat i)) (seq 0 (Z.to_nat num)).

(** [y[-1] = v] on a non-empty array. *)
Definition set_last (y : list float) (v : float) : list float :=
  match y with
  | [] => []
  | _ :: _ => removelast y ++ [v]
  end.

(** [np.linspace(start, stop, num)] with the default [endpoint=True]:
    [num < 0] raises; otherwise [arange(0, num)] is scaled by the step
    [(stop - start) / (num - 1)] (by [stop - start] when [num <= 1]),
    shifted by [start], and its last entry is overwritten with [stop]
    when [num > 1]. *)
Definition linspace (start stop : float) (num : Z) : res (list float) :=
  if num <? 0 then Raise ValueError
  else
    let div := num - 1 in
    let delta := (stop - start)%float in
    let y := arange num in
    let y :=
      if 0 <? div then
        let step := (delta / Z2float div)%float in
        if (step =? 0)%float
        then map (fun v => (v / Z2float div * delta)%float) y
        else map (fun v => (v * step)%float) y
      else map (fun v => (v * delta)%float) y in
    let y := map (fun v => (v + start)%float) y in
    let y := if 1 <? num then set_last y stop else y in
    Ok y.

(** [np.concatenate] of 1-D arrays. *)
Definition concatenate (arrays : list (list float)) : list float :=
  List.concat arrays.

End Np.

(** [parse_range_tuple(t)]: [np.linspace(t[0], t[1], int(t[2]))]. *)
Definition parse_range_tuple (t : list float) : res (list float) :=
  t0 <- getitem t 0 ;;
  t1 <- getitem t 1 ;;
  t2 <- getitem t 2 ;;
  num <- py_int t2 ;;
  Np.linspace t0 t1 num.

(** The spacing used by [Np.linspace]. *)
Definition linspace_step (start stop : float) (num : Z) : float :=
  if 0 <? num - 1 then ((stop - start) / Z2float (num - 1))%float
  else (stop - start)%float.

Example parse_default_obj_x :
  parse_range_tuple [(-0.35)%float; (-0.12)%float; 5%float]
  = Ok [(-0.35)%float; (-0.2925)%float; (-0.235)%float;
        (-0.17749999999999999)%float; (-0.12)%float].
Proof. vm_compute. reflexivity. Qed.

Example parse_default_robot_x :
  parse_range_tuple [0.35%float; 0.35%float; 1%float] = Ok [0.35%float].
Proof. vm_compute. reflexivity. Qed.

(** With [count = 1] the single value is the lower end, not the upper. *)
Example parse_single_point :
  parse_range_tuple [0%float; 1%float; 1%float] = Ok [0%float].
Proof. vm_compute. reflexivity. Qed.

(** The value [i] of the grid, for [i] before the last index. *)
Definition grid_point (start stop : float) (num : Z) (i : nat) : float :=
  let delta := (stop - start)%float in
  let v := Z2float (Z.of_nat i) in
  if 0 <? num - 1 then
    let step := (delta / Z2float (num - 1))%float in
    if (step =? 0)%float
    then (v / Z2float (num - 1) * delta + start)%float
    else (v * step + start)%float
  else (v * delta + start)%float.

(* ------------------------------------------------------------------ *)
(** ** Facts on binary64 *)

Section FloatFacts.

Lemma SFcompare_refl (x : spec_float) :
  x <> S754_nan -> SFcompare x x = Some Eq.
Proof.
  destruct x as [s|s| |s m e]; simpl; intros H; try congruence.
  - destruct s; reflexivity.
  - rewrite Z.compare_refl.
    assert (Hm : Pos.compare_cont Eq m m = Eq) by apply Pos.compare_cont_refl.
    destruct s; rewrite Hm; reflexivity.
Qed.

Lemma is_nan_spec (x : float) : is_nan x = false -> Prim2SF x <> S754_nan.
Proof.
  unfold is_nan. rewrite eqb_spec. intros H E. rewrite E in H. discriminate.
Qed.

Lemma is_finite_spec (x : float) :
  is_finite x = true ->
  (exists s, Prim2SF x = S754_zero s) \/
  (exists s m e, Prim2SF x = S754_finite s m e).
Proof.
  unfold is_finite, is_nan, is_infinity.
  rewrite !eqb_spec, abs_spec.
  destruct (Prim2SF x) as [s|s| |s m e]; eauto.
  - simpl. intros H. exfalso. revert H. vm_compute. destruct s; discriminate.
  - simpl. discriminate.
Qed.

(** [0 * s + x == x] unless [s] overflowed or [x] is NaN. *)
Lemma zero_mul_add (s x : float) :
  is_finite s = true -> is_nan x = false -> (0 * s + x =? x)%float = true.
Proof.
  intros Hs Hx. apply is_nan_spec in Hx. apply is_finite_spec in Hs.
  rewrite eqb_spec, add_spec, mul_spec.
  change (Prim2SF 0) with (S754_zero false).
  destruct Hs as [[ss ->]|(ss & m & e & ->)];
    destruct (Prim2SF x) as [sx|sx| |sx mx ex] eqn:E; try congruence;
    cbn -[SFcompare]; unfold SFeqb.
  all: try (destruct ss, sx; reflexivity).
  all: try (rewrite SFcompare_refl; [reflexivity|congruence]).
Qed.

(** When the step [delta / d] compares equal to zero, [0 / d * delta + x == x]. *)
Lemma zero_div_mul_add (delta d x : float) :
  (delta / d =? 0)%float = true -> is_nan x = false ->
  (0 / d * delta + x =? x)%float = true.
Proof.
  intros Hstep Hx. apply is_nan_spec in Hx.
  rewrite eqb_spec, div_spec in Hstep.
  rewrite eqb_spec, add_spec, mul_spec, div_spec.
  change (Prim2SF 0) with (S754_zero false) in *.
  destruct (Prim2SF delta) as [sd|sd| |sd md ed];
    destruct (Prim2SF d) as [s|s| |s m e];
    try (exfalso; revert Hstep; cbn; clear; repeat match goal with
         | b : bool |- _ => destruct b end; discriminate);
    clear Hstep;
    destruct (Prim2SF x) as [sx|sx| |sx mx ex] eqn:E; try congruence;
    cbn -[SFcompare]; unfold SFeqb.
  all: try (repeat match goal with b : bool |- _ => destruct b end; reflexivity).
  all: try (rewrite SFcompare_refl; [reflexivity|congruence]).
Qed.

(** [x > 0] on binary64: [x] is a positive number (not a zero, not NaN). *)
Definition is_positive (x : float) : Prop :=
  match Prim2SF x with
  | S754_finite false _ _ | S754_infinity false => True
  | _ => False
  end.

Lemma gt_zero_spec (x : float) : (0 <? x)%float = true <-> is_positive x.
Proof.
  unfold is_positive. rewrite ltb_spec.
  change (Prim2SF 0) with (S754_zero false).
  destruct (Prim2SF x) as [s|s| |s m e]; unfold SFltb; simpl;
    try destruct s; split; intros H; try discriminate; try tauto.
Qed.

End FloatFacts.

(* ------------------------------------------------------------------ *)
(** ** The grid generator *)

Section Linspace.

Lemma arange_length (num : Z) : length (Np.arange num) = Z.to_nat num.
Proof. unfold Np.arange. now rewrite length_map, length_seq. Qed.

Lemma arange_nth (num : Z) (i : nat) :
  (i < Z.to_nat num)%nat ->
  nth_error (Np.arange num) i = Some (Z2float (Z.of_nat i)).
Proof.
  intros Hi. unfold Np.arange.
  rewrite nth_error_map, nth_error_seq.
  destruct (Nat.ltb_spec i (Z.to_nat num)); [reflexivity|lia].
Qed.

Lemma set_last_length (y : list float) (v : float) :
  length (Np.set_last y v) = length y.
Proof.
  destruct y as [|a y]; [reflexivity|].
  unfold Np.set_last. rewrite length_app.
  rewrite (@app_removelast_last _ (a :: y) v) at 2 by discriminate.
  rewrite length_app. reflexivity.
Qed.

Lemma set_last_last (y : list float) (v d : float) :
  y <> [] -> last (Np.set_last y v) d = v.
Proof.
  destruct y as [|a y]; [congruence|]. intros _.
  unfold Np.set_last. apply last_last.
Qed.

Lemma set_last_nth (y : list float) (v : float) (i : nat) :
  (S i < length y)%nat -> nth_error (Np.set_last y v) i = nth_error y i.
Proof.
  intros Hi. destruct y as [|a y]; [reflexivity|].
  unfold Np.set_last.
  assert (Hl : length (removelast (a :: y)) = length y).
  { pose proof (@app_removelast_last _ (a :: y) v ltac:(discriminate)) as E.
    apply (f_equal (@length _)) in E. rewrite length_app in E. simpl in E.
    simpl. lia. }
  rewrite nth_error_app1 by (rewrite Hl; simpl in Hi; lia).
  rewrite (@app_removelast_last _ (a :: y) v) at 2 by discriminate.
  rewrite nth_error_app1 by (rewrite Hl; simpl in Hi; lia).
  reflexivity.
Qed.

(** The array before the endpoint is written. *)
Definition linspace_body (start stop : float) (num : Z) : list float :=
  map (grid_point start stop num) (seq 0 (Z.to_nat num)).

Lemma linspace_unfold (start stop : float) (num : Z) :
  0 <= num ->
  Np.linspace start stop num =
  Ok (if 1 <? num
      then Np.set_last (linspace_body start stop num) stop
      else linspace_body start stop num).
Proof.
  intros Hn. unfold Np.linspace, linspace_body, Np.arange.
  destruct (Z.ltb_spec num 0); [lia|].
  f_equal.
  assert (E : forall y,
    map (fun v => (v + start)%float)
      (if 0 <? num - 1
       then if ((stop - start) / Z2float (num - 1) =? 0)%float
            then map (fun v => (v / Z2float (num - 1) * (stop - start))%float) y
            else map (fun v => (v * ((stop - start) / Z2float (num - 1)))%float) y
       else map (fun v => (v * (stop - start))%float) y)
    = map (fun v =>
        if 0 <? num - 1
        then if ((stop - start) / Z2float (num - 1) =? 0)%float
             then (v / Z2float (num - 1) * (stop - start) + start)%float
             else (v * ((stop - start) / Z2float (num - 1)) + start)%float
        else (v * (stop - start) + start)%float) y).
  { intros y. destruct (0 <? num - 1);
      [destruct ((stop - start) / Z2float (num - 1) =? 0)%float|];
      rewrite map_map; reflexivity. }
  cbv zeta. rewrite E, map_map. unfold grid_point. reflexivity.
Qed.

Lemma linspace_body_length (start stop : float) (num : Z) :
  length (linspace_body start stop num) = Z.to_nat num.
Proof. unfold linspace_body. now rewrite length_map, length_seq. Qed.

Lemma linspace_body_nth (start stop : float) (num : Z) (i : nat) :
  (i < Z.to_nat num)%nat ->
  nth_error (linspace_body start stop num) i = Some (grid_point start stop num i).
Proof.
  intros Hi. unfold linspace_body.
  rewrite nth_error_map, nth_error_seq.
  destruct (Nat.ltb_spec i (Z.to_nat num)); [reflexivity|lia].
Qed.

Lemma linspace_length (start stop : float) (num : Z) (l : list float) :
  Np.linspace start stop num = Ok l -> length l = Z.to_nat num.
Proof.
  destruct (Z.ltb_spec num 0) as [Hn|Hn].
  - unfold Np.linspace. destruct (Z.ltb_spec num 0); [discriminate|lia].
  - rewrite linspace_unfold by assumption. intros [= <-].
    destruct (1 <? num); [rewrite set_last_length|]; apply linspace_body_length.
Qed.

Lemma linspace_negative (start stop : float) (num : Z) :
  num < 0 -> Np.linspace start stop num = Raise ValueError.
Proof.
  intros Hn. unfold Np.linspace. destruct (Z.ltb_spec num 0); [reflexivity|lia].
Qed.

Lemma linspace_empty (start stop : float) : Np.linspace start stop 0 = Ok [].
Proof. reflexivity. Qed.

(** The first grid value compares equal to [start] when [start] is a number
    and the spacing did not overflow. *)
Lemma grid_point_first (start stop : float) (num : Z) :
  is_nan start = false ->
  is_finite (linspace_step start stop num) = true ->
  (grid_point start stop num 0 =? start)%float = true.
Proof.
  intros Hs Hf. unfold grid_point, linspace_step in *.
  change (Z2float (Z.of_nat 0)) with 0%float.
  destruct (0 <? num - 1).
  - destruct ((stop - start) / Z2float (num - 1) =? 0)%float eqn:E.
    + now apply zero_div_mul_add.
    + now apply zero_mul_add.
  - now apply zero_mul_add.
Qed.

End Linspace.

Section GridGenerator.

Lemma parse_range_tuple_unfold (mn mx cnt : float) :
  parse_range_tuple [mn; mx; cnt] = (num <- py_int cnt ;; Np.linspace mn mx num).
Proof. reflexivity. Qed.

(** C3 (as amended).  For a count whose integer value [n] is at least 1 the
    grid generator returns exactly [n] values; every value before the last
    index is the grid point [min + i * step] as binary64 computes it; with
    [n >= 2] the last value is [max] itself; with [n = 1] the single value is
    the grid point 0 (so the upper end is not reached); and the first value
    compares equal to [min] whenever [min] is a number and the spacing is
    finite. *)
Theorem parse_range_tuple_grid (mn mx cnt : float) (n : Z) :
  py_int cnt = Ok n -> 1 <= n ->
  exists l,
    parse_range_tuple [mn; mx; cnt] = Ok l
    /\ length l = Z.to_nat n
    /\ (forall i, (S i < Z.to_nat n)%nat ->
          nth_error l i = Some (grid_point mn mx n i))
    /\ (n = 1 -> l = [grid_point mn mx 1 0])
    /\ (2 <= n -> last l mn = mx)
    /\ (is_nan mn = false -> is_finite (linspace_step mn mx n) = true ->
        exists v, hd_error l = Some v /\ (v =? mn)%float = true).
Proof.
  intros Hcnt Hn.
  rewrite parse_range_tuple_unfold, Hcnt. simpl bind.
  rewrite linspace_unfold by lia.
  eexists; split; [reflexivity|].
  pose proof (linspace_body_length mn mx n) as Hlen.
  destruct (Z.ltb_spec 1 n) as [H1|H1].
  - assert (Hne : linspace_body mn mx n <> []).
    { intros E. rewrite E in Hlen. simpl in Hlen. lia. }
    repeat split.
    + now rewrite set_last_length.
    + intros i Hi. rewrite set_last_nth by lia.
      apply linspace_body_nth. lia.
    + lia.
    + intros _. now apply set_last_last.
    + intros Hnan Hfin. exists (grid_point mn mx n 0). split.
      * assert (Hz : nth_error (Np.set_last (linspace_body mn mx n) mx) 0
                     = Some (grid_point mn mx n 0)).
        { rewrite set_last_nth by lia. apply linspace_body_nth. lia. }
        destruct (Np.set_last (linspace_body mn mx n) mx); [discriminate|].
        exact Hz.
      * now apply grid_point_first.
  - assert (n = 1) as -> by lia.
    repeat split.
    + intros i Hi. simpl in Hi. lia.
    + lia.
    + intros Hnan Hfin. exists (grid_point mn mx 1 0). split; [reflexivity|].
      now apply grid_point_first.
Qed.

Lemma parse_range_tuple_grid_witness :
  exists l,
    parse_range_tuple [(-0.35)%float; (-0.12)%float; 5%float] = Ok l
    /\ length l = 5%nat
    /\ last l (-0.35)%float = (-0.12)%float
    /\ exists v, hd_error l = Some v /\ (v =? -0.35)%float = true.
Proof.
  destruct (@parse_range_tuple_grid (-0.35)%float (-0.12)%float 5%float 5)
    as (l & Hl & Hlen & _ & _ & Hlast & Hfirst).
  - vm_compute. reflexivity.
  - lia.
  - exists l. repeat split.
    + exact Hl.
    + exact Hlen.
    + apply Hlast. lia.
    + apply Hfirst; vm_compute; reflexivity.
Defined.

(** C3 (as stated) fails at a single-point grid with distinct ends: the
    range (0, 1, 1) yields the one value 0, whose last entry is not the
    upper end 1. *)
Lemma parse_range_tuple_single_misses_max :
  py_int 1%float = Ok 1
  /\ parse_range_tuple [0%float; 1%float; 1%float] = Ok [0%float]
  /\ (last [0%float] nan =? 1)%float = false.
Proof. vm_compute. repeat split; reflexivity. Qed.

(** Overflow of [max - min] turns the first value into NaN, also for one
    point: the first value needs a finite spacing. *)
Example parse_range_tuple_overflow :
  parse_range_tuple [(-1e308)%float; 1e308%float; 2%float]
  = Ok [nan; 1e308%float]
  /\ parse_range_tuple [(-1e308)%float; 1e308%float; 1%float] = Ok [nan].
Proof. vm_compute. split; reflexivity. Qed.

(** C4 (as amended).  A count whose integer value [n] is not positive is
    rejected with [ValueError] exactly when [n] is negative; a count that
    truncates to zero is accepted and yields the empty value list. *)
Theorem parse_range_tuple_nonpositive (mn mx cnt : float) (n : Z) :
  py_int cnt = Ok n -> n <= 0 ->
  parse_range_tuple [mn; mx; cnt] = if n <? 0 then Raise ValueError else Ok [].
Proof.
  intros Hcnt Hn. rewrite parse_range_tuple_unfold, Hcnt. simpl bind.
  destruct (Z.ltb_spec n 0) as [Hneg|Hz].
  - now apply linspace_negative.
  - assert (n = 0) as -> by lia. apply linspace_empty.
Qed.

Lemma parse_range_tuple_nonpositive_witness :
  parse_range_tuple [0.35%float; 0.35%float; (-3)%float] = Raise ValueError.
Proof.
  apply (@parse_range_tuple_nonpositive 0.35%float 0.35%float (-3)%float (-3)).
  - vm_compute. reflexivity.
  - lia.
Defined.

(** C4 (as stated) fails at count 0: the range (0.35, 0.35, 0) is not
    rejected, it yields no value at all. *)
Lemma parse_range_tuple_zero_count_accepted :
  (0 <=? 0)%float = true
  /\ parse_range_tuple [0.35%float; 0.35%float; 0%float] = Ok [].
Proof. vm_compute. split; reflexivity. Qed.

(** A count that is not a number, or not finite, is rejected by [int]. *)
Lemma parse_range_tuple_bad_count (mn mx cnt : float) (e : exn) :
  py_int cnt = Raise e -> parse_range_tuple [mn; mx; cnt] = Raise e.
Proof. intros H. rewrite parse_range_tuple_unfold, H. reflexivity. Qed.

Example parse_range_tuple_fraction :
  parse_range_tuple [0.35%float; 0.35%float; (-0.5)%float] = Ok []
  /\ parse_range_tuple [0.35%float; 0.35%float; nan] = Raise ValueError
  /\ parse_range_tuple [0.35%float; 0.35%float; neg_infinity]
     = Raise OverflowError.
Proof. vm_compute. repeat split; reflexivity. Qed.

End GridGenerator.

(* ------------------------------------------------------------------ *)
(** ** Strings and paths *)

Module Str.

Import String Ascii.

Definition chars := list ascii.

Infix "+++" := String.append (at level 60, right associativity).

(** [s[-1]]. *)
Definition last_char (s : string) : res ascii :=
  match rev (list_ascii_of_string s) with
  | [] => Raise IndexError
  | c :: _ => Ok c
  end.

(** [s[:-1]]. *)
Definition drop_last (s : string) : string :=
  string_of_list_ascii (removelast (list_ascii_of_string s)).

(** [s.split(sep)] for a one-character separator: never empty. *)
Fixpoint split_chars (sep : ascii) (s : chars) : list chars :=
  match s with
  | [] => [[]]
  | a :: s' =>
      if Ascii.eqb a sep then [] :: split_chars sep s'
      else match split_chars sep s' with
           | [] => [[a]]
           | w :: ws => (a :: w) :: ws
           end
  end.

Definition split (sep : ascii) (s : string) : list string :=
  map string_of_list_ascii (split_chars sep (list_ascii_of_string s)).

(** [s.split(sep)[-1]]. *)
Definition split_last (sep : ascii) (s : string) : string :=
  last (split sep s) EmptyString.

(** [os.path.basename(p)]: what follows the last slash. *)
Definition basename (p : string) : string := split_last "/" p.

(** [s.rfind(c)]: the index of the last [c], or -1. *)
Fixpoint rfind_from (c : ascii) (s : chars) (i : Z) (found : Z) : Z :=
  match s with
  | [] => found
  | a :: s' => rfind_from c s' (i + 1) (if Ascii.eqb a c then i else found)
  end.

Definition rfind (c : ascii) (s : chars) : Z := rfind_from c s 0 (-1).

(** [os.path.splitext(p)[0]]: [p] without the extension that starts at its
    last dot, when that dot comes after the last slash and after a
    character of the file name that is not a dot. *)
Definition splitext_root (p : string) : string :=
  let s := list_ascii_of_string p in
  let sepIndex := rfind "/" s in
  let dotIndex := rfind "." s in
  if sepIndex <? dotIndex then
    let name_head :=
      firstn (Z.to_nat (dotIndex - (sepIndex + 1)))
             (skipn (Z.to_nat (sepIndex + 1)) s) in
    if forallb (fun a => Ascii.eqb a ".") name_head then p
    else string_of_list_ascii (firstn (Z.to_nat dotIndex) s)
  else p.

Fixpoint prefixb (p s : chars) : bool :=
  match p, s with
  | [], _ => true
  | a :: p', b :: s' => Ascii.eqb a b && prefixb p' s'
  | _ :: _, [] => false
  end.

(** [s.replace(old, new)] for a non-empty [old]: every occurrence, left to
    right, without overlap.  [skip] counts the characters of a matched
    [old] still to be dropped. *)
Fixpoint replace_chars (old new : chars) (skip : nat) (s : chars) : chars :=
  match s with
  | [] => []
  | a :: s' =>
      match skip with
      | S k => replace_chars old new k s'
      | O =>
          if prefixb old s
          then (new ++ replace_chars old new (List.length old - 1) s')%list
          else a :: replace_chars old new 0 s'
      end
  end.

Definition replace (old new s : string) : string :=
  string_of_list_ascii
    (replace_chars (list_ascii_of_string old) (list_ascii_of_string new) 0
                   (list_ascii_of_string s)).

(** Trailing slashes removed: [s.rstrip('/')]. *)
Definition rstrip_slash (s : chars) : chars :=
  rev ((fix strip (r : chars) : chars :=
          match r with
          | a :: r' => if Ascii.eqb a "/" then strip r' else r
          | [] => []
          end) (rev s)).

(** [os.path.dirname(p)]. *)
Definition dirname (p : string) : string :=
  let s := list_ascii_of_string p in
  let i := rfind "/" s + 1 in
  let head := firstn (Z.to_nat i) s in
  if forallb (fun a => Ascii.eqb a "/") head
  then string_of_list_ascii head
  else string_of_list_ascii (rstrip_slash head).

Example basename_ex : basename "/data/google_table_top_1.png" = "google_table_top_1.png"%string.
Proof. reflexivity. Qed.

Example splitext_ex :
  splitext_root "google_table_top_1.png" = "google_table_top_1"%string
  /\ splitext_root ".hidden" = ".hidden"%string
  /\ splitext_root "a.b/c" = "a.b/c"%string.
Proof. repeat split; reflexivity. Qed.

Example replace_ex :
  replace ".mp4" ".png" "results/x.mp4/success.mp4" = "results/x.png/success.png"%string.
Proof. reflexivity. Qed.

Example dirname_ex :
  dirname "results/ckpt/success.png" = "results/ckpt"%string
  /\ dirname "/x" = "/"%string /\ dirname "x" = ""%string.
Proof. repeat split; reflexivity. Qed.

End Str.

(* ------------------------------------------------------------------ *)
(** ** The episode rollout: [main] *)

(** The structured action of a policy step: four 1-D arrays. *)
Record Action : Type := {
  world_vector : list float;
  rot_axangle : list float;
  gripper : list float;
  terminate_episode : list float
}.

(** The options of [env.reset]. *)
Record ResetOptions : Type := {
  obj_init_xy : list float;
  robot_init_xy : list float;
  robot_init_rot_quat : list float
}.

Section Rollout.

Import String Ascii Str.
#[local] Abbreviation length := List.length.
Local Open Scope string_scope.
Local Open Scope list_scope.

(** States of the two stateful collaborators, and the data they exchange. *)
Variables Env Policy : Type.
Variables Obs Image RawAction Info Task : Type.

(** Values of build kwargs and of episode statistics, with [str(v)]. *)
Variable PyVal : Type.
Variable py_str : PyVal -> string.

(** [str(x)] of a NumPy float, as an f-string prints it. *)
Variable str_float : float -> string.

(** A dict whose iteration order is its insertion order. *)
Definition Dict : Type := list (string * PyVal).

(** The arguments of [main]. *)
Record MainArgs : Type := {
  ckpt_path : string;
  robot_name : string;
  env_name : string;
  scene_name : string;
  robot_init_x : float;
  robot_init_y : float;
  robot_init_quat : list float;
  obj_init_x : float;
  obj_init_y : float;
  control_mode : string;
  additional_env_build_kwargs : option Dict;
  rgb_overlay_path : option string;
  tmp_exp : bool;
  control_freq : Z;
  sim_freq : Z;
  max_episode_steps : Z;
  instruction : option string;
  action_scale : float
}.

(** The keyword arguments of [build_maniskill2_env]. *)
Record BuildArgs : Type := {
  b_env_name : string;
  b_obs_mode : string;
  b_robot : string;
  b_sim_freq : Z;
  b_control_mode : string;
  b_control_freq : Z;
  b_max_episode_steps : Z;
  b_scene_name : string;
  b_add_segmentation : bool;
  b_rgb_overlay_path : option string;
  b_instruction : option string;
  b_kwargs : Dict
}.

(** What [env.step] returns. *)
Record StepResult : Type := {
  step_obs : Obs;
  step_reward : float;
  step_done : bool;
  step_truncated : bool;
  step_info : Info
}.

(** The environment. *)
Variable build_maniskill2_env : BuildArgs -> Env * Task.
Variable env_reset : Env -> ResetOptions -> Env * Obs.
Variable get_gripper_closedness : Env -> float.
Variable env_step : Env -> list float -> Env * StepResult.
(** [obs['image']['overhead_camera']['rgb']] *)
Variable overhead_camera_rgb : Obs -> Image.
(** The truth value of [info['success']]. *)
Variable info_success : Info -> bool.

(** The policy. *)
Variable model_reset : Policy -> Task -> Policy.
Variable model_step : Policy -> Image -> float -> Policy * (RawAction * Action).

(** The episode statistics rules of [additional_episode_stats]. *)
Variable initialize_additional_episode_stats : string -> Dict.
Variable update_additional_episode_stats : string -> Dict -> Info -> Dict.
Variable obtain_truncation_step_success : string -> Dict -> Info -> bool.

(** The local variables of [main] that the loop reads and writes. *)
Record Locals : Type := {
  env : Env;
  model : Policy;
  image : Image;
  images : list Image;
  predicted_actions : list RawAction;
  predicted_terminated : bool;
  done : bool;
  truncated : bool;
  info : option Info;
  additional_episode_stats : Dict;
  timestep : Z;
  success : string
}.

Definition build_args (a : MainArgs) (kwargs : Dict) : BuildArgs := {|
  b_env_name := env_name a;
  b_obs_mode := "rgbd";
  b_robot := robot_name a;
  b_sim_freq := sim_freq a;
  b_control_mode := control_mode a;
  b_control_freq := control_freq a;
  b_max_episode_steps := max_episode_steps a;
  b_scene_name := scene_name a;
  b_add_segmentation := true;
  b_rgb_overlay_path := rgb_overlay_path a;
  b_instruction := instruction a;
  b_kwargs := kwargs
|}.

Definition env_reset_options (a : MainArgs) : ResetOptions := {|
  obj_init_xy := [obj_init_x a; obj_init_y a];
  robot_init_xy := [robot_init_x a; robot_init_y a];
  robot_init_rot_quat := robot_init_quat a
|}.

(** [**kwargs] in a call: [kwargs] must be a mapping. *)
Definition unpack_mapping (kwargs : option Dict) : res Dict :=
  match kwargs with
  | Some d => Ok d
  | None => Raise TypeError
  end.

(** Lines 29-67: the environment is built and reset, the policy is reset,
    and the locals get their initial values. *)
Definition reset_episode (m : Policy) (a : MainArgs) : res Locals :=
  kwargs <- unpack_mapping (additional_env_build_kwargs a) ;;
  let '(e, task_description) := build_maniskill2_env (build_args a kwargs) in
  let '(e, obs) := env_reset e (env_reset_options a) in
  let img := overhead_camera_rgb obs in
  Ok
  {| env := e;
     model := model_reset m task_description;
     image := img;
     images := [img];
     predicted_actions := [];
     predicted_terminated := false;
     done := false;
     truncated := false;
     info := None;
     additional_episode_stats := initialize_additional_episode_stats (env_name a);
     timestep := 0;
     success := "failure" |}.

(** The vector handed to [env.step] (lines 79-84). *)
Definition env_action (action : Action) : list float :=
  Np.concatenate [world_vector action; rot_axangle action; gripper action].

(** Lines 71-93: one pass through the loop body. *)
Definition loop_body (name : string) (s : Locals) : res Locals :=
  let cur_gripper_closedness := get_gripper_closedness (env s) in
  let '(m, (raw_action, action)) :=
    model_step (model s) (image s) cur_gripper_closedness in
  let acts := predicted_actions s ++ [raw_action] in
  t <- getitem (terminate_episode action) 0 ;;
  let terminated := (0 <? t)%float in
  let '(e, r) := env_step (env s) (env_action action) in
  let stats :=
    update_additional_episode_stats name (additional_episode_stats s)
                                    (step_info r) in
  let succ :=
    if terminated && info_success (step_info r) then "success" else success s in
  let img := overhead_camera_rgb (step_obs r) in
  Ok {| env := e;
        model := m;
        image := img;
        images := images s ++ [img];
        predicted_actions := acts;
        predicted_terminated := terminated;
        done := step_done r;
        truncated := step_truncated r;
        info := Some (step_info r);
        additional_episode_stats := stats;
        timestep := timestep s + 1;
        success := succ |}.

(** Line 70: the loop test. *)
Definition loop_cond (s : Locals) : bool :=
  negb (predicted_terminated s || truncated s).

(** Lines 70-93: the loop, run for at most [fuel] passes. *)
Fixpoint while_loop (name : string) (fuel : nat) (s : Locals) : res Locals :=
  if loop_cond s then
    match fuel with
    | O => Spin
    | S fuel' => s' <- loop_body name s ;; while_loop name fuel' s'
    end
  else Ok s.

(** Lines 96-97: the success indicator at the end of the loop.  Reading
    [info] before any step has bound it is a [NameError]. *)
Definition truncation_check (name : string) (s : Locals) : res Locals :=
  match info s with
  | None => Raise NameError
  | Some i =>
      let succ :=
        if obtain_truncation_step_success name (additional_episode_stats s) i
        then "success" else success s in
      Ok {| env := env s;
            model := model s;
            image := image s;
            images := images s;
            predicted_actions := predicted_actions s;
            predicted_terminated := predicted_terminated s;
            done := done s;
            truncated := truncated s;
            info := info s;
            additional_episode_stats := additional_episode_stats s;
            timestep := timestep s;
            success := succ |}
  end.

(** Lines 29-97 of [main]: the rollout, up to the final outcome. *)
Definition rollout (fuel : nat) (m : Policy) (a : MainArgs) : res Locals :=
  s0 <- reset_episode m a ;;
  s <- while_loop (env_name a) fuel s0 ;;
  truncation_check (env_name a) s.

(** *** Runs of the loop *)

(** [exec name s tr s']: started with the locals [s], the loop makes
    [length tr] passes, after which the locals are, pass by pass, those of
    [tr], and it exits with the locals [s']. *)
Inductive exec (name : string) : Locals -> list Locals -> Locals -> Prop :=
| exec_exit (s : Locals) :
    loop_cond s = false -> exec name s [] s
| exec_pass (s s1 : Locals) (tr : list Locals) (s' : Locals) :
    loop_cond s = true ->
    loop_body name s = Ok s1 ->
    exec name s1 tr s' ->
    exec name s (s1 :: tr) s'.

(** A pass flagged as a successful termination: the policy asked to stop
    and the info record of that step marks success. *)
Definition terminated_with_success (st : Locals) : Prop :=
  predicted_terminated st = true /\
  exists i, info st = Some i /\ info_success i = true.

Lemma loop_body_Ok (name : string) (s s' : Locals) :
  loop_body name s = Ok s' ->
  exists m raw action t e r,
    model_step (model s) (image s) (get_gripper_closedness (env s))
      = (m, (raw, action))
    /\ terminate_episode action = t :: tl (terminate_episode action)
    /\ env_step (env s) (env_action action) = (e, r)
    /\ s' = {| env := e;
               model := m;
               image := overhead_camera_rgb (step_obs r);
               images := images s ++ [overhead_camera_rgb (step_obs r)];
               predicted_actions := predicted_actions s ++ [raw];
               predicted_terminated := (0 <? t)%float;
               done := step_done r;
               truncated := step_truncated r;
               info := Some (step_info r);
               additional_episode_stats :=
                 update_additional_episode_stats
                   name (additional_episode_stats s) (step_info r);
               timestep := timestep s + 1;
               success :=
                 if (0 <? t)%float && info_success (step_info r)
                 then "success" else success s |}.
Proof.
  unfold loop_body.
  destruct (model_step (model s) (image s) (get_gripper_closedness (env s)))
    as [m [raw action]] eqn:Hm.
  destruct (terminate_episode action) as [|t ts] eqn:Ht; [discriminate|].
  cbn [getitem nth_error bind].
  destruct (env_step (env s) (env_action action)) as [e r] eqn:He.
  intros [= <-].
  exists m, raw, action, t, e, r. rewrite Ht. repeat split; assumption.
Qed.

Lemma exec_while_loop (name : string) (s : Locals) (tr : list Locals)
  (s' : Locals) :
  exec name s tr s' ->
  forall fuel, (length tr <= fuel)%nat -> while_loop name fuel s = Ok s'.
Proof.
  induction 1 as [s Hc|s s1 tr s' Hc Hb _ IH]; intros fuel Hf.
  - destruct fuel; simpl; rewrite Hc; reflexivity.
  - destruct fuel as [|fuel]; [simpl in Hf; lia|].
    simpl. rewrite Hc, Hb. simpl. apply IH. simpl in Hf. lia.
Qed.

Lemma while_loop_exec (name : string) (fuel : nat) :
  forall s s', while_loop name fuel s = Ok s' ->
  exists tr, (length tr <= fuel)%nat /\ exec name s tr s'.
Proof.
  induction fuel as [|fuel IH]; intros s s'; simpl;
    destruct (loop_cond s) eqn:Hc; try discriminate.
  - intros [= <-]. exists []. split; [simpl; lia|now constructor].
  - intros H. apply bind_Ok_inv in H as (s1 & Hb & Hw).
    apply IH in Hw as (tr & Hlen & Hex).
    exists (s1 :: tr). split; [simpl; lia|]. econstructor; eassumption.
  - intros [= <-]. exists []. split; [simpl; lia|now constructor].
Qed.

Lemma exec_deterministic (name : string) (s : Locals) (tr1 : list Locals)
  (s1 : Locals) :
  exec name s tr1 s1 ->
  forall tr2 s2, exec name s tr2 s2 -> tr1 = tr2 /\ s1 = s2.
Proof.
  induction 1 as [s Hc|s sa tr s' Hc Hb _ IH]; intros tr2 s2 H2;
    inversion H2 as [s0 Hc0|s0 sb trb sb' Hc0 Hb0 Hex0]; subst;
    try congruence; auto.
  assert (sa = sb) as -> by congruence.
  destruct (IH _ _ Hex0) as [-> ->]. auto.
Qed.

Lemma exec_exit_cond (name : string) (s : Locals) (tr : list Locals)
  (s' : Locals) :
  exec name s tr s' -> loop_cond s' = false.
Proof. induction 1; assumption. Qed.

Lemma last_cons (A : Type) (l : list A) (a d : A) :
  last (a :: l) d = last l a.
Proof.
  revert a d. induction l as [|b l IH]; intros a d; [reflexivity|].
  change (last (a :: b :: l) d) with (last (b :: l) d).
  now rewrite (IH b d), (IH b a).
Qed.

Lemma exec_final (name : string) (s : Locals) (tr : list Locals)
  (s' : Locals) :
  exec name s tr s' -> s' = last tr s.
Proof.
  induction 1 as [s Hc|s s1 tr s' Hc Hb _ IH]; [reflexivity|].
  rewrite IH. symmetry. apply last_cons.
Qed.

(** Every pass but the last leaves both exit flags false. *)
Lemma exec_inner_cond (name : string) (s : Locals) (tr : list Locals)
  (s' : Locals) :
  exec name s tr s' ->
  forall st, In st (removelast (s :: tr)) -> loop_cond st = true.
Proof.
  induction 1 as [s Hc|s s1 tr s' Hc Hb _ IH]; intros st Hin.
  - destruct Hin.
  - change (removelast (s :: s1 :: tr)) with (s :: removelast (s1 :: tr)) in Hin.
    destruct Hin as [<-|Hin]; [assumption|now apply IH].
Qed.

(** What a run does to the frames, the raw actions and the outcome. *)
Lemma exec_accumulates (name : string) (s : Locals) (tr : list Locals)
  (s' : Locals) :
  exec name s tr s' ->
  length (images s') = (length (images s) + length tr)%nat
  /\ length (predicted_actions s')
     = (length (predicted_actions s) + length tr)%nat
  /\ timestep s' = timestep s + Z.of_nat (length tr)
  /\ (tr <> [] -> info s' <> None)
  /\ (success s' = "success" <->
      success s = "success" \/ exists st, In st tr /\ terminated_with_success st)
  /\ (success s' = "success" \/ success s' = success s).
Proof.
  induction 1 as [s Hc|s s1 tr s' Hc Hb Hex IH].
  - repeat split; try (simpl; lia); try tauto.
    intros [H|(st & [] & _)]; assumption.
  - destruct IH as (Him & Hac & Hts & Hinfo & Hsucc & Hcases).
    apply loop_body_Ok in Hb as (m & raw & action & t & e & r & Hm & Ht & He & ->).
    cbn [images predicted_actions timestep success info] in *.
    rewrite length_app in Him, Hac. cbn [length] in *.
    assert (Hinfo' : info s' <> None).
    { destruct tr as [|s2 tr]; [|apply Hinfo; discriminate].
      inversion Hex; subst. discriminate. }
    repeat split; try lia; try (intros _; assumption).
    + intros Hs. apply Hsucc in Hs as [Hs|(st & Hin & Hst)].
      * destruct ((0 <? t)%float && info_success (step_info r)) eqn:Hf;
          [|now left].
        right. eexists. split; [left; reflexivity|].
        apply andb_prop in Hf as [Hf1 Hf2].
        split; [exact Hf1|]. cbn [info]. eauto.
      * right. exists st. split; [now right|assumption].
    + intros [Hs|(st & [<-|Hin] & Hst)]; apply Hsucc.
      * left. rewrite Hs. destruct (_ && _); reflexivity.
      * left. destruct Hst as (Hp & i & Hi & His).
        cbn [predicted_terminated info] in Hp, Hi.
        injection Hi as <-. rewrite Hp, His. reflexivity.
      * right. exists st. auto.
    + destruct Hcases as [Hs|Hs]; [now left|].
      rewrite Hs. destruct (_ && _); [now left|now right].
Qed.

(** The loop finishes when some measure of the locals decreases at every
    pass that does not end it, as a step ceiling in the environment
    provides. *)
Lemma while_loop_total (name : string) (remaining : Locals -> nat) :
  (forall s, loop_cond s = true ->
     exists s1, loop_body name s = Ok s1
                /\ (loop_cond s1 = true -> (remaining s1 < remaining s)%nat)) ->
  forall fuel s, (remaining s < fuel)%nat ->
  exists s', while_loop name fuel s = Ok s'.
Proof.
  intros Hstep. induction fuel as [|fuel IH]; intros s Hf; [lia|].
  cbn [while_loop]. destruct (loop_cond s) eqn:Hc; [|eauto].
  destruct (Hstep s Hc) as (s1 & Hb & Hdec). rewrite Hb. cbn [bind].
  destruct (loop_cond s1) eqn:Hc1.
  - apply IH. specialize (Hdec eq_refl). lia.
  - exists s1. destruct fuel; cbn [while_loop]; rewrite Hc1; reflexivity.
Qed.

Lemma reset_episode_init (m : Policy) (a : MainArgs) (s : Locals) :
  reset_episode m a = Ok s ->
  loop_cond s = true
  /\ success s = "failure"
  /\ length (images s) = 1%nat
  /\ predicted_actions s = []
  /\ info s = None
  /\ timestep s = 0.
Proof.
  unfold reset_episode.
  destruct (additional_env_build_kwargs a) as [kwargs|]; [|discriminate].
  cbn [unpack_mapping bind].
  destruct (build_maniskill2_env (build_args a kwargs)) as [e task].
  destruct (env_reset e (env_reset_options a)) as [e' obs].
  intros [= <-]. cbn. repeat split.
Qed.

(** The reset fails only for build kwargs that are not a mapping. *)
Lemma reset_episode_total (m : Policy) (a : MainArgs) :
  additional_env_build_kwargs a <> None ->
  exists s, reset_episode m a = Ok s.
Proof.
  unfold reset_episode.
  destruct (additional_env_build_kwargs a) as [kwargs|]; [|congruence].
  intros _. cbn [unpack_mapping bind].
  destruct (build_maniskill2_env (build_args a kwargs)) as [e task].
  destruct (env_reset e (env_reset_options a)) as [e' obs].
  eauto.
Qed.

Lemma reset_episode_failure (m : Policy) (a : MainArgs) :
  (forall e, reset_episode m a = Raise e -> e = TypeError)
  /\ reset_episode m a <> Spin.
Proof.
  unfold reset_episode.
  destruct (additional_env_build_kwargs a) as [kwargs|];
    cbn [unpack_mapping bind].
  - destruct (build_maniskill2_env (build_args a kwargs)) as [e task].
    destruct (env_reset e (env_reset_options a)) as [e' obs].
    split; [intros e0 H|]; discriminate.
  - split; [intros e0 [= <-]; reflexivity|discriminate].
Qed.

(** The body raises nothing but the [IndexError] of an empty
    [terminate_episode], and never reports its own non-termination. *)
Lemma loop_body_failure (name : string) (s : Locals) :
  (forall e, loop_body name s = Raise e -> e = IndexError)
  /\ loop_body name s <> Spin.
Proof.
  unfold loop_body.
  destruct (model_step (model s) (image s) (get_gripper_closedness (env s)))
    as [m [raw action]].
  destruct (terminate_episode action) as [|t ts]; cbn [getitem nth_error bind].
  - split; [intros e [= <-]; reflexivity|discriminate].
  - destruct (env_step (env s) (env_action action)) as [e r].
    split; [intros e0 H|]; discriminate.
Qed.

Lemma while_loop_raises (name : string) (fuel : nat) :
  forall s e, while_loop name fuel s = Raise e -> e = IndexError.
Proof.
  induction fuel as [|fuel IH]; intros s e; simpl;
    destruct (loop_cond s); try discriminate.
  destruct (loop_body name s) as [s1|e1|] eqn:Hb; simpl.
  - apply IH.
  - intros [= <-]. now apply (proj1 (loop_body_failure name s)).
  - discriminate.
Qed.

(** Every finished rollout is a run of the loop from the reset locals. *)
Lemma rollout_Ok_exec (fuel : nat) (m : Policy) (a : MainArgs) (r : Locals) :
  rollout fuel m a = Ok r ->
  exists s0 tr s',
    reset_episode m a = Ok s0
    /\ (length tr <= fuel)%nat
    /\ exec (env_name a) s0 tr s'
    /\ truncation_check (env_name a) s' = Ok r.
Proof.
  unfold rollout. intros H. apply bind_Ok_inv in H as (s0 & H0 & H).
  apply bind_Ok_inv in H as (s' & Hw & Ht).
  apply while_loop_exec in Hw as (tr & Hlen & Hex).
  exists s0, tr, s'. auto.
Qed.

(** C1.  An episode whose loop exits after the passes [tr] has a final
    outcome, and that outcome is "success" exactly when some pass had the
    termination flag true together with a success-marking info record, or
    the truncation predicate holds of the final statistics and the last
    info record; otherwise it is "failure". *)
Theorem rollout_outcome (m : Policy) (a : MainArgs) (s0 : Locals)
  (tr : list Locals) (s' : Locals) :
  reset_episode m a = Ok s0 ->
  exec (env_name a) s0 tr s' ->
  forall fuel, (length tr <= fuel)%nat ->
  exists r i,
    rollout fuel m a = Ok r
    /\ info s' = Some i
    /\ (success r = "success" <->
        (exists st, In st tr /\ terminated_with_success st)
        \/ obtain_truncation_step_success
             (env_name a) (additional_episode_stats s') i = true)
    /\ (success r = "success" \/ success r = "failure").
Proof.
  intros Hreset Hex fuel Hfuel.
  destruct (reset_episode_init m a Hreset) as (Hc0 & Hs0 & _ & _ & _ & _).
  pose proof (exec_accumulates Hex) as (_ & _ & _ & Hinfo & Hsucc & Hcases).
  assert (Hne : tr <> []).
  { intros ->. inversion Hex; subst. congruence. }
  destruct (info s') as [i|] eqn:Hi; [|now elim (Hinfo Hne)].
  unfold rollout. rewrite Hreset. cbn [bind].
  rewrite (exec_while_loop Hex Hfuel). cbn [bind].
  unfold truncation_check. rewrite Hi.
  eexists. exists i. split; [reflexivity|]. split; [reflexivity|].
  cbn [success].
  destruct (obtain_truncation_step_success _ _ i) eqn:Ho.
  - split; [|now left]. split; auto.
  - rewrite Hs0 in Hsucc, Hcases. split; [|exact Hcases].
    rewrite Hsucc. split.
    + intros [H|H]; [discriminate|now left].
    + intros [H|H]; [now right|discriminate].
Qed.

(** C2.  The loop exits only with the termination flag or the truncated
    flag true: the locals it exits with have one of them set, every earlier
    pass left both false, and from locals with both false it makes another
    pass, whatever the environment's [done] is. *)
Theorem loop_exits_on_flags_only (name : string) (fuel : nat)
  (s s' : Locals) :
  while_loop name fuel s = Ok s' ->
  exists tr,
    exec name s tr s'
    /\ (predicted_terminated s' = true \/ truncated s' = true)
    /\ (forall st, In st (removelast (s :: tr)) ->
          predicted_terminated st = false /\ truncated st = false)
    /\ (predicted_terminated s = false -> truncated s = false ->
        exists s1 tr', tr = s1 :: tr' /\ loop_body name s = Ok s1).
Proof.
  intros Hw. apply while_loop_exec in Hw as (tr & _ & Hex).
  exists tr. split; [exact Hex|]. repeat split.
  - apply exec_exit_cond in Hex. unfold loop_cond in Hex.
    apply negb_false_iff, orb_true_iff in Hex. exact Hex.
  - pose proof (exec_inner_cond Hex st H) as Hc. unfold loop_cond in Hc.
    apply negb_true_iff, orb_false_iff in Hc. apply Hc.
  - pose proof (exec_inner_cond Hex st H) as Hc. unfold loop_cond in Hc.
    apply negb_true_iff, orb_false_iff in Hc. apply Hc.
  - intros Hp Ht. inversion Hex as [s0 Hc|s0 s1 tr' s0' Hc Hb Hex']; subst.
    + unfold loop_cond in Hc. rewrite Hp, Ht in Hc. discriminate.
    + eauto.
Qed.

(** C6.  In a pass of the loop the termination flag becomes true exactly
    when the first component of the action's [terminate_episode] is a
    positive number, that is when [terminate_episode[0] > 0]. *)
Theorem predicted_terminated_iff (name : string) (s : Locals) (m : Policy)
  (raw : RawAction) (action : Action) (t : float) (ts : list float) :
  model_step (model s) (image s) (get_gripper_closedness (env s))
    = (m, (raw, action)) ->
  terminate_episode action = t :: ts ->
  exists s1,
    loop_body name s = Ok s1
    /\ predicted_terminated s1 = (0 <? t)%float
    /\ (predicted_terminated s1 = true <-> is_positive t).
Proof.
  intros Hm Ht. unfold loop_body. rewrite Hm, Ht.
  cbn [getitem nth_error bind].
  destruct (env_step (env s) (env_action action)) as [e r].
  eexists. split; [reflexivity|]. cbn [predicted_terminated].
  split; [reflexivity|apply gt_zero_spec].
Qed.

(** C7.  In a pass of the loop [env.step] receives the concatenation of
    [world_vector], [rot_axangle] and [gripper], in that order: the new
    environment state and everything read from the step are its results at
    that vector, which has 7 entries for components of sizes 3, 3 and 1. *)
Theorem env_step_receives_concatenation (name : string) (s : Locals)
  (m : Policy) (raw : RawAction) (action : Action) :
  model_step (model s) (image s) (get_gripper_closedness (env s))
    = (m, (raw, action)) ->
  terminate_episode action <> [] ->
  let v := world_vector action ++ rot_axangle action ++ gripper action in
  exists s1,
    loop_body name s = Ok s1
    /\ env_action action = v
    /\ env s1 = fst (env_step (env s) v)
    /\ image s1 = overhead_camera_rgb (step_obs (snd (env_step (env s) v)))
    /\ done s1 = step_done (snd (env_step (env s) v))
    /\ truncated s1 = step_truncated (snd (env_step (env s) v))
    /\ info s1 = Some (step_info (snd (env_step (env s) v)))
    /\ (length (world_vector action) = 3%nat ->
        length (rot_axangle action) = 3%nat ->
        length (gripper action) = 1%nat ->
        length v = 7%nat
        /\ firstn 3 v = world_vector action
        /\ firstn 3 (skipn 3 v) = rot_axangle action
        /\ skipn 6 v = gripper action).
Proof.
  intros Hm Ht v.
  assert (Hv : env_action action = v).
  { unfold env_action, Np.concatenate, v. simpl.
    now rewrite app_nil_r. }
  unfold loop_body. rewrite Hm.
  destruct (terminate_episode action) as [|t ts]; [congruence|].
  cbn [getitem nth_error bind]. rewrite Hv.
  destruct (env_step (env s) v) as [e r].
  eexists. split; [reflexivity|].
  cbn [env image done truncated info fst snd].
  repeat (split; [reflexivity|]).
  intros H1 H2 H3. unfold v. repeat split.
  - rewrite !length_app. lia.
  - rewrite firstn_app, H1, Nat.sub_diag, firstn_O, app_nil_r.
    rewrite <- H1. apply firstn_all.
  - rewrite skipn_app, H1, Nat.sub_diag, skipn_O.
    replace (skipn 3 (world_vector action)) with (@nil float)
      by (symmetry; apply skipn_all2; lia).
    cbn [app].
    rewrite firstn_app, H2, Nat.sub_diag, firstn_O, app_nil_r.
    rewrite <- H2. apply firstn_all.
  - rewrite skipn_app, H1. cbn [Nat.sub].
    replace (skipn 6 (world_vector action)) with (@nil float)
      by (symmetry; apply skipn_all2; lia).
    cbn [app]. rewrite skipn_app, H2. cbn [Nat.sub].
    replace (skipn 3 (rot_axangle action)) with (@nil float)
      by (symmetry; apply skipn_all2; lia).
    reflexivity.
Qed.

Lemma truncation_check_keeps (name : string) (s r : Locals) :
  truncation_check name s = Ok r ->
  images r = images s
  /\ predicted_actions r = predicted_actions s
  /\ info r = info s
  /\ additional_episode_stats r = additional_episode_stats s
  /\ (success s = "success" -> success r = "success").
Proof.
  unfold truncation_check. destruct (info s) as [i|] eqn:Hi; [|discriminate].
  intros [= <-]. cbn. repeat split; try assumption.
  intros ->. destruct (obtain_truncation_step_success _ _ _); reflexivity.
Qed.

(** C8.  When the first action of the policy has a positive terminate
    component and the info record of that step marks success, the episode
    ends after that single pass: the outcome is "success" and the frame
    sequence holds the initial image and the image of the step. *)
Theorem terminate_on_first_step (m : Policy) (a : MainArgs) (s0 : Locals)
  (m1 : Policy) (raw : RawAction) (action : Action) (t : float)
  (ts : list float) (e : Env) (r : StepResult) :
  reset_episode m a = Ok s0 ->
  model_step (model s0) (image s0) (get_gripper_closedness (env s0))
    = (m1, (raw, action)) ->
  terminate_episode action = t :: ts ->
  (0 <? t)%float = true ->
  env_step (env s0) (env_action action) = (e, r) ->
  info_success (step_info r) = true ->
  forall fuel, (1 <= fuel)%nat ->
  exists res,
    rollout fuel m a = Ok res
    /\ success res = "success"
    /\ length (images res) = 2%nat
    /\ predicted_actions res = [raw].
Proof.
  intros Hreset Hm Ht Hpos He Hinfo fuel Hfuel.
  destruct (reset_episode_init m a Hreset) as (Hc0 & Hs0 & Him0 & Hac0 & _ & _).
  destruct fuel as [|fuel]; [lia|].
  unfold rollout. rewrite Hreset. cbn [bind while_loop]. rewrite Hc0.
  unfold loop_body. rewrite Hm, Ht. cbn [getitem nth_error bind].
  rewrite He, Hpos, Hinfo. cbn [andb bind].
  assert (Hexit : forall f s, predicted_terminated s = true ->
                              while_loop (env_name a) f s = Ok s).
  { intros f s Hp. destruct f; simpl; unfold loop_cond; rewrite Hp;
      reflexivity. }
  rewrite Hexit by reflexivity. cbn [bind].
  unfold truncation_check. cbn [info].
  eexists. split; [reflexivity|]. cbn [success images predicted_actions].
  repeat split.
  - destruct (obtain_truncation_step_success _ _ _); reflexivity.
  - rewrite length_app, Him0. reflexivity.
  - rewrite Hac0. reflexivity.
Qed.

(** C10.  The loop test holds of the reset locals, so every finished
    rollout made at least one pass: it recorded as many raw actions as
    passes, one frame more, and the info record read by the truncation
    check is the one of the last pass; that check never meets an unbound
    [info]. *)
Theorem rollout_runs_body_once (fuel : nat) (m : Policy) (a : MainArgs) :
  (forall s0, reset_episode m a = Ok s0 ->
     predicted_terminated s0 = false /\ truncated s0 = false
     /\ loop_cond s0 = true)
  /\ rollout fuel m a <> Raise NameError
  /\ forall r, rollout fuel m a = Ok r ->
     exists s0 tr s' i,
       reset_episode m a = Ok s0
       /\ exec (env_name a) s0 tr s'
       /\ (1 <= length tr)%nat
       /\ length (predicted_actions r) = length tr
       /\ length (images r) = S (length tr)
       /\ (1 <= length (predicted_actions r))%nat
       /\ (2 <= length (images r))%nat
       /\ info s' = Some i
       /\ info r = Some i.
Proof.
  split; [|split].
  - intros s0 Hreset.
    destruct (reset_episode_init m a Hreset) as (Hc0 & _).
    pose proof Hc0 as Hc. unfold loop_cond in Hc.
    apply negb_true_iff, orb_false_iff in Hc. tauto.
  - unfold rollout.
    destruct (reset_episode m a) as [s0|e|] eqn:Hreset; cbn [bind];
      [| |discriminate].
    2:{ apply (proj1 (reset_episode_failure m a)) in Hreset. subst e.
        discriminate. }
    destruct (reset_episode_init m a Hreset) as (Hc0 & _).
    destruct (while_loop (env_name a) fuel s0)
      as [s'|e|] eqn:Hw; cbn [bind]; [| |discriminate].
    + apply while_loop_exec in Hw as (tr & _ & Hex).
      pose proof (exec_accumulates Hex) as (_ & _ & _ & Hinfo & _).
      assert (Hne : tr <> []).
      { intros ->. inversion Hex; subst. congruence. }
      unfold truncation_check.
      destruct (info s'); [discriminate|now elim (Hinfo Hne)].
    + apply while_loop_raises in Hw. subst e. discriminate.
  - intros r Hr.
    apply rollout_Ok_exec in Hr as (s0 & tr & s' & Hreset & _ & Hex & Ht).
    destruct (reset_episode_init m a Hreset)
      as (Hc0 & Hs0 & Him0 & Hac0 & Hi0 & _).
    pose proof (exec_accumulates Hex) as (Him & Hac & _ & Hinfo & _).
    assert (Hne : (1 <= length tr)%nat).
    { destruct tr; [|simpl; lia]. inversion Hex; subst. congruence. }
    apply truncation_check_keeps in Ht as (Hi & Ha & Hn & _).
    rewrite Him0 in Him. rewrite Hac0 in Hac. cbn [length] in Hac.
    destruct (info s') as [i|] eqn:Hs'.
    + exists s0, tr, s', i. rewrite Hi, Ha, Hn, Him, Hac.
      repeat split; try assumption; lia.
    + exfalso. apply Hinfo; [|reflexivity]. intros ->. simpl in Hne. lia.
Qed.

(** *** The artifact names (lines 100-124) *)

(** [name = name + f'_{k}_{v}'] for every item of a dict, in its order. *)
Definition add_suffixes (base : string) (d : Dict) : string :=
  fold_left
    (fun acc kv => acc +++ "_" +++ fst kv +++ "_" +++ py_str (snd kv)) d base.

(** [d.items()]: [None] has no such attribute. *)
Definition items (d : option Dict) : res Dict :=
  match d with
  | Some d => Ok d
  | None => Raise AttributeError
  end.

(** Lines 103-104: the last component of the checkpoint path, after one
    trailing slash is dropped. *)
Definition ckpt_path_basename (path : string) : res string :=
  c <- last_char path ;;
  let stem := if Ascii.eqb c "/"%char then drop_last path else path in
  Ok (split_last "/"%char stem).

(** Lines 109-112. *)
Definition rgb_overlay_path_str (overlay : option string) : string :=
  match overlay with
  | Some p => splitext_root (basename p)
  | None => "None"
  end.

(** Lines 100-117: the path of the video. *)
Definition video_path (a : MainArgs) (outcome : string) (stats : Dict)
  : res string :=
  kwargs <- items (additional_env_build_kwargs a) ;;
  let env_save_name := add_suffixes (env_name a) kwargs in
  base <- ckpt_path_basename (ckpt_path a) ;;
  let video_name :=
    outcome +++ "_obj_" +++ str_float (obj_init_x a)
            +++ "_" +++ str_float (obj_init_y a) in
  let video_name := add_suffixes video_name stats in
  let video_name := video_name +++ ".mp4" in
  let path :=
    base +++ "/" +++ scene_name a +++ "/" +++ control_mode a
         +++ "/" +++ env_save_name
         +++ "/rob_" +++ str_float (robot_init_x a)
         +++ "_" +++ str_float (robot_init_y a)
         +++ "_rgb_overlay_" +++ rgb_overlay_path_str (rgb_overlay_path a)
         +++ "/" +++ video_name in
  Ok (if tmp_exp a then "results_tmp/" +++ path else "results/" +++ path).

(** Lines 121-124: the directory and the path of the action plot. *)
Definition action_paths (video : string) : string * string :=
  let action_path := replace ".mp4" ".png" video in
  let action_root := dirname action_path +++ "/actions/" in
  (action_root, action_root +++ basename action_path).

(** What an episode hands to [write_video], [os.makedirs] and
    [model.visualize_epoch]. *)
Record Artifacts : Type := {
  video_file : string;
  video_frames : list Image;
  video_fps : Z;
  actions_dir : string;
  actions_file : string;
  actions_raw : list RawAction;
  actions_frames : list Image
}.

(** [main]: the rollout, then the two artifacts.  The policy comes back
    in the state the episode left it in. *)
Definition main (fuel : nat) (m : Policy) (a : MainArgs)
  : res (Policy * Artifacts) :=
  s <- rollout fuel m a ;;
  video <- video_path a (success s) (additional_episode_stats s) ;;
  let '(action_root, action_path) := action_paths video in
  Ok (model s,
      {| video_file := video;
         video_frames := images s;
         video_fps := 5;
         actions_dir := action_root;
         actions_file := action_path;
         actions_raw := predicted_actions s;
         actions_frames := images s |}).

(** C9.  The video path, and with it the directory and the path of the
    action plot, is a function of the checkpoint path, the scene, the
    control mode, the environment name, the build kwargs in their order,
    the robot xy, the overlay path, the outcome, the object xy, the
    statistics in their order and the [tmp_exp] flag: two episodes that
    agree on these get the same paths, whatever else differs. *)
Theorem video_path_deterministic (a1 a2 : MainArgs)
  (outcome1 outcome2 : string) (stats1 stats2 : Dict) :
  ckpt_path a1 = ckpt_path a2 ->
  scene_name a1 = scene_name a2 ->
  control_mode a1 = control_mode a2 ->
  env_name a1 = env_name a2 ->
  additional_env_build_kwargs a1 = additional_env_build_kwargs a2 ->
  robot_init_x a1 = robot_init_x a2 ->
  robot_init_y a1 = robot_init_y a2 ->
  rgb_overlay_path a1 = rgb_overlay_path a2 ->
  outcome1 = outcome2 ->
  obj_init_x a1 = obj_init_x a2 ->
  obj_init_y a1 = obj_init_y a2 ->
  stats1 = stats2 ->
  tmp_exp a1 = tmp_exp a2 ->
  video_path a1 outcome1 stats1 = video_path a2 outcome2 stats2
  /\ (v <- video_path a1 outcome1 stats1 ;; Ok (action_paths v))
     = (v <- video_path a2 outcome2 stats2 ;; Ok (action_paths v))
  /\ (rgb_overlay_path a1 = None ->
      rgb_overlay_path_str (rgb_overlay_path a2) = "None").
Proof.
  intros Hck Hsc Hcm Hen Hkw Hrx Hry Hov Hout Hox Hoy Hst Htmp.
  assert (E : video_path a1 outcome1 stats1 = video_path a2 outcome2 stats2).
  { unfold video_path.
    rewrite Hck, Hsc, Hcm, Hen, Hkw, Hrx, Hry, Hov, Hout, Hox, Hoy, Hst, Htmp.
    reflexivity. }
  split; [exact E|]. split; [now rewrite E|].
  intros Hnone. rewrite <- Hov, Hnone. reflexivity.
Qed.

(** The paths of a finished [main] are those of [video_path] at the final
    outcome and statistics. *)
Lemma main_artifact_paths (fuel : nat) (m m' : Policy) (a : MainArgs)
  (art : Artifacts) :
  main fuel m a = Ok (m', art) ->
  exists s,
    rollout fuel m a = Ok s
    /\ video_path a (success s) (additional_episode_stats s)
       = Ok (video_file art)
    /\ (actions_dir art, actions_file art) = action_paths (video_file art)
    /\ video_frames art = images s
    /\ actions_raw art = predicted_actions s
    /\ m' = model s.
Proof.
  unfold main. intros H.
  apply bind_Ok_inv in H as (s & Hs & H).
  apply bind_Ok_inv in H as (v & Hv & H).
  destruct (action_paths v) as [root path] eqn:Hp.
  injection H as <- <-. cbn. exists s. rewrite Hp. repeat split; assumption.
Qed.

(** *** The sweep (lines 174-208) *)

(** A [for] loop over a list whose body threads a state and may raise. *)
Fixpoint for_each (A S : Type) (xs : list A) (body : A -> S -> res S)
  (s : S) : res S :=
  match xs with
  | [] => Ok s
  | x :: xs' => s' <- body x s ;; for_each xs' body s'
  end.

(** One point of the sweep grid. *)
Record InitialCondition : Type := {
  robot_x : float;
  robot_y : float;
  robot_orientation : list float;
  object_x : float;
  object_y : float
}.

(** The parsed command line. *)
Record CliArgs : Type := {
  policy_model : string;
  cli_ckpt_path : string;
  cli_env_name : string;
  cli_scene_name : string;
  robot : string;
  gpu_id : Z;
  cli_action_scale : float;
  cli_control_freq : Z;
  cli_sim_freq : Z;
  cli_max_episode_steps : Z;
  cli_rgb_overlay_path : option string;
  robot_init_x_range : list float;
  robot_init_y_range : list float;
  robot_init_rot_quat_center : list float;
  robot_init_rot_rpy_range : list float;
  obj_init_x_range : list float;
  obj_init_y_range : list float;
  cli_additional_env_build_kwargs : option Dict
}.

Variable get_robot_control_mode : string -> string.
Variable euler2quat : float -> float -> float -> list float.
(** [(Pose(q=a) * Pose(q=b)).q] *)
Variable pose_mul_q : list float -> list float -> list float.
Variable RT1Inference : string -> float -> Policy.
Variable OctoInference : string -> float -> Policy.

(** [sub in s] *)
Fixpoint contains_chars (sub s : list ascii) : bool :=
  prefixb sub s ||
  match s with
  | [] => false
  | _ :: s' => contains_chars sub s'
  end.

Definition contains (sub s : string) : bool :=
  contains_chars (list_ascii_of_string sub) (list_ascii_of_string s).

(** Lines 180-184: the orientations, by three nested loops whose ranges
    are parsed where the loops are entered. *)
Definition expand_quats (rpy center : list float) : res (list (list float)) :=
  rs <- parse_range_tuple (firstn 3 rpy) ;;
  for_each rs (fun r quats =>
    ps <- parse_range_tuple (firstn 3 (skipn 3 rpy)) ;;
    for_each ps (fun p quats =>
      ys <- parse_range_tuple (skipn 6 rpy) ;;
      for_each ys (fun y quats =>
        Ok (quats ++ [pose_mul_q (euler2quat r p y) center])) quats) quats) [].

(** Lines 188-193. *)
Definition load_policy (cli : CliArgs) : res Policy :=
  if String.eqb (policy_model cli) "rt1"
  then Ok (RT1Inference (cli_ckpt_path cli) (cli_action_scale cli))
  else if contains "octo" (policy_model cli)
  then Ok (OctoInference (policy_model cli) (cli_action_scale cli))
  else Raise NotImplementedError.

(** The arguments of the call of [main] at lines 201-208. *)
Definition main_args (cli : CliArgs) (mode : string) (ic : InitialCondition)
  : MainArgs := {|
  ckpt_path := cli_ckpt_path cli;
  robot_name := robot cli;
  env_name := cli_env_name cli;
  scene_name := cli_scene_name cli;
  robot_init_x := robot_x ic;
  robot_init_y := robot_y ic;
  robot_init_quat := robot_orientation ic;
  obj_init_x := object_x ic;
  obj_init_y := object_y ic;
  control_mode := mode;
  additional_env_build_kwargs := cli_additional_env_build_kwargs cli;
  rgb_overlay_path := cli_rgb_overlay_path cli;
  tmp_exp := false;
  control_freq := cli_control_freq cli;
  sim_freq := cli_sim_freq cli;
  max_episode_steps := cli_max_episode_steps cli;
  instruction := None;
  action_scale := cli_action_scale cli
|}.

(** The state of the sweep: the shared policy, and the episodes run so far
    with the initial conditions they were started from. *)
Definition SweepState : Type := (Policy * list (InitialCondition * Artifacts))%type.

(** One call of [main] in the sweep. *)
Definition episode (fuel : nat) (cli : CliArgs) (mode : string)
  (ic : InitialCondition) (st : SweepState) : res SweepState :=
  r <- main fuel (fst st) (main_args cli mode ic) ;;
  Ok (fst r, snd st ++ [(ic, snd r)]).

(** Lines 196-208: the five nested loops. *)
Definition sweep_loops (S : Type) (body : InitialCondition -> S -> res S)
  (robot_init_xs robot_init_ys : list float)
  (robot_init_quats : list (list float))
  (obj_init_xs obj_init_ys : list float) : S -> res S :=
  for_each robot_init_xs (fun x =>
    for_each robot_init_ys (fun y =>
      for_each robot_init_quats (fun q =>
        for_each obj_init_xs (fun ox =>
          for_each obj_init_ys (fun oy =>
            body {| robot_x := x; robot_y := y; robot_orientation := q;
                    object_x := ox; object_y := oy |}))))).

(** Lines 174-208: the grid is expanded, the policy is loaded, and the
    sweep runs.  The device setup of lines 164-171 (environment variables,
    GPU memory limit) acts on the process only and is left out. *)
Definition run_inference (fuel : nat) (cli : CliArgs) : res SweepState :=
  let mode := get_robot_control_mode (robot cli) in
  robot_init_xs <- parse_range_tuple (robot_init_x_range cli) ;;
  robot_init_ys <- parse_range_tuple (robot_init_y_range cli) ;;
  obj_init_xs <- parse_range_tuple (obj_init_x_range cli) ;;
  obj_init_ys <- parse_range_tuple (obj_init_y_range cli) ;;
  robot_init_quats <-
    expand_quats (robot_init_rot_rpy_range cli)
                 (robot_init_rot_quat_center cli) ;;
  m <- load_policy cli ;;
  sweep_loops (episode fuel cli mode)
              robot_init_xs robot_init_ys robot_init_quats
              obj_init_xs obj_init_ys (m, []).

(** The Cartesian product of the five value lists, first list slowest. *)
Definition cartesian_product (xs ys : list float) (qs : list (list float))
  (oxs oys : list float) : list InitialCondition :=
  map (fun t =>
         {| robot_x := fst t;
            robot_y := fst (snd t);
            robot_orientation := fst (snd (snd t));
            object_x := fst (snd (snd (snd t)));
            object_y := snd (snd (snd (snd t))) |})
      (list_prod xs (list_prod ys (list_prod qs (list_prod oxs oys)))).

Lemma for_each_ext (A S : Type) (xs : list A) (b1 b2 : A -> S -> res S) :
  (forall x s, b1 x s = b2 x s) ->
  forall s, for_each xs b1 s = for_each xs b2 s.
Proof.
  intros Hb. induction xs as [|x xs IH]; intros s; simpl; [reflexivity|].
  rewrite Hb. destruct (b2 x s); simpl; auto.
Qed.

Lemma for_each_app (A S : Type) (xs ys : list A) (body : A -> S -> res S)
  (s : S) :
  for_each (xs ++ ys) body s = (s' <- for_each xs body s ;; for_each ys body s').
Proof.
  revert s. induction xs as [|x xs IH]; intros s; simpl; [reflexivity|].
  destruct (body x s); simpl; auto.
Qed.

Lemma for_each_map (A B S : Type) (f : A -> B) (xs : list A)
  (body : B -> S -> res S) (s : S) :
  for_each (map f xs) body s = for_each xs (fun x => body (f x)) s.
Proof.
  revert s. induction xs as [|x xs IH]; intros s; simpl; [reflexivity|].
  destruct (body (f x) s); simpl; auto.
Qed.

(** Two nested loops are one loop over the product, first list slowest. *)
Lemma for_each_prod (A B S : Type) (xs : list A) (ys : list B)
  (body : A * B -> S -> res S) (s : S) :
  for_each (list_prod xs ys) body s
  = for_each xs (fun x => for_each ys (fun y => body (x, y))) s.
Proof.
  revert s. induction xs as [|x xs IH]; intros s; [reflexivity|].
  cbn [list_prod for_each]. rewrite for_each_app, for_each_map.
  destruct (for_each ys (fun y => body (x, y)) s); simpl; auto.
Qed.

Lemma nth_error_list_prod (A B : Type) (xs : list A) (ys : list B)
  (i j : nat) (a : A) (b : B) :
  nth_error xs i = Some a -> nth_error ys j = Some b ->
  nth_error (list_prod xs ys) (i * length ys + j) = Some (a, b).
Proof.
  revert i. induction xs as [|x xs IH]; intros i Hi Hj.
  - destruct i; discriminate.
  - assert (Hlt : (j < length ys)%nat).
    { apply nth_error_Some. congruence. }
    cbn [list_prod]. destruct i as [|i]; cbn [nth_error] in Hi.
    + injection Hi as ->. cbn [Nat.mul Nat.add].
      rewrite nth_error_app1 by (rewrite length_map; exact Hlt).
      rewrite nth_error_map, Hj. reflexivity.
    + rewrite nth_error_app2 by (rewrite length_map; simpl; lia).
      rewrite length_map.
      replace (S i * length ys + j - length ys)%nat
        with (i * length ys + j)%nat by (simpl; lia).
      now apply IH.
Qed.

Lemma sweep_loops_product (S : Type) (body : InitialCondition -> S -> res S)
  (xs ys : list float) (qs : list (list float)) (oxs oys : list float)
  (s : S) :
  sweep_loops body xs ys qs oxs oys s
  = for_each (cartesian_product xs ys qs oxs oys) body s.
Proof.
  unfold sweep_loops, cartesian_product.
  rewrite for_each_map, for_each_prod. apply for_each_ext. intros x s1.
  rewrite for_each_prod. apply for_each_ext. intros y s2.
  rewrite for_each_prod. apply for_each_ext. intros q s3.
  rewrite for_each_prod. reflexivity.
Qed.

Lemma cartesian_product_length (xs ys : list float) (qs : list (list float))
  (oxs oys : list float) :
  length (cartesian_product xs ys qs oxs oys)
  = (length xs * (length ys * (length qs * (length oxs * length oys))))%nat.
Proof.
  unfold cartesian_product. now rewrite length_map, !length_prod.
Qed.

Lemma cartesian_product_nth (xs ys : list float) (qs : list (list float))
  (oxs oys : list float) (i j k l n : nat) (x y : float) (q : list float)
  (ox oy : float) :
  nth_error xs i = Some x -> nth_error ys j = Some y ->
  nth_error qs k = Some q -> nth_error oxs l = Some ox ->
  nth_error oys n = Some oy ->
  nth_error (cartesian_product xs ys qs oxs oys)
    (i * (length ys * (length qs * (length oxs * length oys)))
     + (j * (length qs * (length oxs * length oys))
        + (k * (length oxs * length oys) + (l * length oys + n))))
  = Some {| robot_x := x; robot_y := y; robot_orientation := q;
            object_x := ox; object_y := oy |}.
Proof.
  intros Hx Hy Hq Hox Hoy. unfold cartesian_product.
  rewrite nth_error_map.
  pose proof (nth_error_list_prod _ _ _ _ Hox Hoy) as H1.
  pose proof (nth_error_list_prod _ _ _ _ Hq H1) as H2.
  pose proof (nth_error_list_prod _ _ _ _ Hy H2) as H3.
  pose proof (nth_error_list_prod _ _ _ _ Hx H3) as H4.
  rewrite !length_prod in H4. rewrite H4. reflexivity.
Qed.

Lemma cartesian_product_In (xs ys : list float) (qs : list (list float))
  (oxs oys : list float) (ic : InitialCondition) :
  In ic (cartesian_product xs ys qs oxs oys) <->
  In (robot_x ic) xs /\ In (robot_y ic) ys /\ In (robot_orientation ic) qs
  /\ In (object_x ic) oxs /\ In (object_y ic) oys.
Proof.
  unfold cartesian_product. rewrite in_map_iff. split.
  - intros ([x [y [q [ox oy]]]] & <- & Hin).
    rewrite !in_prod_iff in Hin. cbn. tauto.
  - intros (Hx & Hy & Hq & Hox & Hoy).
    exists (robot_x ic, (robot_y ic, (robot_orientation ic,
            (object_x ic, object_y ic)))).
    split; [destruct ic; reflexivity|].
    rewrite !in_prod_iff. tauto.
Qed.

(** The log of a sweep grows by one entry per point, in the order of the
    points. *)
Lemma for_each_episode_log (fuel : nat) (cli : CliArgs) (mode : string)
  (grid : list InitialCondition) :
  forall st st',
    for_each grid (episode fuel cli mode) st = Ok st' ->
    map fst (snd st') = map fst (snd st) ++ grid.
Proof.
  induction grid as [|ic grid IH]; intros st st'; simpl.
  - intros [= <-]. now rewrite app_nil_r.
  - intros H. apply bind_Ok_inv in H as (st1 & H1 & H2).
    apply IH in H2. rewrite H2.
    unfold episode in H1. apply bind_Ok_inv in H1 as (r & _ & H1).
    injection H1 as <-. cbn [snd]. rewrite map_app, <- app_assoc.
    reflexivity.
Qed.

(** C5.  Once the five value lists are expanded and the policy is loaded,
    the sweep is one loop over the Cartesian product of the lists in the
    nested order robot x, robot y, orientation, object x, object y: it
    calls [main] on the points of the product in that order (the point of
    indices i, j, k, l, n sits at the mixed-radix position), a sweep that
    finishes has run exactly these points in this order, and the same
    arguments give the same sweep. *)
Theorem sweep_visits_product (fuel : nat) (cli : CliArgs)
  (xs ys oxs oys : list float) (qs : list (list float)) (m : Policy) :
  parse_range_tuple (robot_init_x_range cli) = Ok xs ->
  parse_range_tuple (robot_init_y_range cli) = Ok ys ->
  parse_range_tuple (obj_init_x_range cli) = Ok oxs ->
  parse_range_tuple (obj_init_y_range cli) = Ok oys ->
  expand_quats (robot_init_rot_rpy_range cli)
               (robot_init_rot_quat_center cli) = Ok qs ->
  load_policy cli = Ok m ->
  let grid := cartesian_product xs ys qs oxs oys in
  run_inference fuel cli
    = for_each grid (episode fuel cli (get_robot_control_mode (robot cli)))
               (m, [])
  /\ length grid
     = (length xs * (length ys * (length qs * (length oxs * length oys))))%nat
  /\ (forall i j k l n x y q ox oy,
        nth_error xs i = Some x -> nth_error ys j = Some y ->
        nth_error qs k = Some q -> nth_error oxs l = Some ox ->
        nth_error oys n = Some oy ->
        nth_error grid
          (i * (length ys * (length qs * (length oxs * length oys)))
           + (j * (length qs * (length oxs * length oys))
              + (k * (length oxs * length oys) + (l * length oys + n))))
        = Some {| robot_x := x; robot_y := y; robot_orientation := q;
                  object_x := ox; object_y := oy |})
  /\ (forall st, run_inference fuel cli = Ok st -> map fst (snd st) = grid)
  /\ (forall cli', cli' = cli ->
        run_inference fuel cli' = run_inference fuel cli).
Proof.
  intros Hxs Hys Hoxs Hoys Hqs Hm grid.
  assert (E : run_inference fuel cli
              = for_each grid
                  (episode fuel cli (get_robot_control_mode (robot cli)))
                  (m, [])).
  { unfold run_inference. rewrite Hxs, Hys, Hoxs, Hoys, Hqs, Hm.
    cbn [bind]. apply sweep_loops_product. }
  split; [exact E|]. split; [apply cartesian_product_length|].
  split; [intros; now apply cartesian_product_nth|]. split.
  - intros st Hst. rewrite E in Hst.
    apply for_each_episode_log in Hst. exact Hst.
  - intros cli' ->. reflexivity.
Qed.

(* ------------------------------------------------------------------ *)
(** *** Further properties of the rollout *)

Lemma exec_frames (name : string) (s : Locals) (tr : list Locals)
  (s' : Locals) :
  exec name s tr s' ->
  images s' = images s ++ map image tr
  /\ (forall st d, In st tr -> image st = last (images st) d)
  /\ additional_episode_stats s'
     = fold_left
         (fun st x =>
            match info x with
            | Some i => update_additional_episode_stats name st i
            | None => st
            end)
         tr (additional_episode_stats s)
  /\ length (predicted_actions s')
     = (length (predicted_actions s) + length tr)%nat
  /\ timestep s' = timestep s + Z.of_nat (length tr).
Proof.
  induction 1 as [s Hc|s s1 tr s' Hc Hb Hex IH].
  - cbn. rewrite app_nil_r. repeat split; try lia; try (intros st d []).
  - destruct IH as (Him & Hlast & Hst & Hact & Hts).
    apply loop_body_Ok in Hb
      as (m & raw & action & t & e & r & Hm & Ht & He & ->).
    cbn [images image info additional_episode_stats predicted_actions
         timestep map fold_left] in Him, Hst, Hact, Hts |- *.
    rewrite length_app in Hact. cbn [length] in Hact |- *.
    repeat split.
    + rewrite Him, <- app_assoc. reflexivity.
    + intros st d [<-|Hin]; [|now apply Hlast].
      cbn [image images]. now rewrite last_last.
    + exact Hst.
    + lia.
    + lia.
Qed.

(** X1.  Frames and policy input.  In an episode that starts from the
    reset locals, the frame sequence is the initial image followed by the
    image of every pass in order, the current image (the one the policy
    is given at the next pass) is always the last frame, and the step
    counter equals the number of recorded raw actions, one less than the
    number of frames. *)
Theorem rollout_frames (m : Policy) (a : MainArgs) (s0 : Locals)
  (tr : list Locals) (s' : Locals) :
  reset_episode m a = Ok s0 ->
  exec (env_name a) s0 tr s' ->
  images s' = image s0 :: map image tr
  /\ (forall st, In st (s0 :: tr) -> image st = last (images st) (image s0))
  /\ timestep s' = Z.of_nat (length (predicted_actions s'))
  /\ length (images s') = S (length (predicted_actions s')).
Proof.
  intros Hreset Hex.
  destruct (exec_frames Hex) as (Him & Hlast & _ & Hla & Hts).
  destruct (reset_episode_init m a Hreset) as (_ & _ & Hi0 & Ha0 & _ & Ht0).
  assert (E0 : images s0 = [image s0]).
  { revert Hreset. unfold reset_episode.
    destruct (additional_env_build_kwargs a) as [kw|]; [|discriminate].
    cbn [unpack_mapping bind].
    destruct (build_maniskill2_env (build_args a kw)) as [e task].
    destruct (env_reset e (env_reset_options a)) as [e' obs].
    intros [= <-]. reflexivity. }
  rewrite Ha0 in Hla. cbn [length] in Hla.
  repeat split.
  - rewrite Him, E0. reflexivity.
  - intros st [<-|Hin]; [rewrite E0; reflexivity|now apply Hlast].
  - rewrite Hts, Ht0, Hla. cbn. reflexivity.
  - rewrite Him, E0. cbn [app length]. now rewrite length_map, Hla.
Qed.

(** X2.  Statistics.  The statistics an episode ends with are the
    initial statistics of the environment type, updated once per pass, in
    order, with the info record of that pass; the truncation check reads
    them unchanged. *)
Theorem rollout_stats_fold (fuel : nat) (m : Policy) (a : MainArgs)
  (r : Locals) :
  rollout fuel m a = Ok r ->
  exists s0 tr s',
    reset_episode m a = Ok s0
    /\ exec (env_name a) s0 tr s'
    /\ (forall st, In st tr -> info st <> None)
    /\ additional_episode_stats r
       = fold_left
           (fun st x =>
              match info x with
              | Some i => update_additional_episode_stats (env_name a) st i
              | None => st
              end)
           tr (initialize_additional_episode_stats (env_name a)).
Proof.
  intros Hr.
  apply rollout_Ok_exec in Hr as (s0 & tr & s' & Hreset & _ & Hex & Ht).
  exists s0, tr, s'. split; [exact Hreset|]. split; [exact Hex|].
  apply truncation_check_keeps in Ht as (_ & _ & _ & Hst & _).
  destruct (exec_frames Hex) as (_ & _ & Hfold & _).
  assert (E0 : additional_episode_stats s0
               = initialize_additional_episode_stats (env_name a)).
  { revert Hreset. unfold reset_episode.
    destruct (additional_env_build_kwargs a) as [kw|]; [|discriminate].
    cbn [unpack_mapping bind].
    destruct (build_maniskill2_env (build_args a kw)) as [e task].
    destruct (env_reset e (env_reset_options a)) as [e' obs].
    intros [= <-]. reflexivity. }
  split.
  - clear - Hex. induction Hex as [s Hc|s s1 tr s' Hc Hb Hex IH].
    + intros st [].
    + intros st [<-|Hin]; [|now apply IH].
      apply loop_body_Ok in Hb
        as (m0 & raw & action & t & e & r0 & _ & _ & _ & ->).
      discriminate.
  - rewrite Hst, Hfold, E0. reflexivity.
Qed.

(** Only the pass the loop exits with can have the termination flag. *)
Lemma exec_flag_last (name : string) (s : Locals) (tr : list Locals)
  (s' : Locals) :
  exec name s tr s' ->
  forall st, In st tr -> predicted_terminated st = true -> st = s'.
Proof.
  induction 1 as [s Hc|s s1 tr s' Hc Hb Hex IH]; intros st Hin Hp.
  - destruct Hin.
  - destruct Hin as [<-|Hin]; [|now apply IH].
    inversion Hex as [s2 Hc2|s2 s3 tr' s2' Hc2 Hb2 Hex2]; subst;
      [reflexivity|].
    unfold loop_cond in Hc2. rewrite Hp in Hc2. discriminate.
Qed.

Lemma exec_final_in (name : string) (s : Locals) (tr : list Locals)
  (s' : Locals) :
  exec name s tr s' -> tr <> [] -> In s' tr.
Proof.
  induction 1 as [s Hc|s s1 tr s' Hc Hb Hex IH]; intros Hne; [congruence|].
  destruct tr as [|x tr].
  - inversion Hex; subst. now left.
  - right. apply IH. discriminate.
Qed.

(** X3.  Success by termination is decided by the last step alone: the
    outcome of an episode is "success" exactly when the loop exited with
    the termination flag true and the info record of that last step marks
    success, or the truncation predicate holds; in particular an episode
    that ends by truncation only is judged by the truncation predicate
    alone. *)
Theorem rollout_outcome_last_step (m : Policy) (a : MainArgs) (s0 : Locals)
  (tr : list Locals) (s' : Locals) :
  reset_episode m a = Ok s0 ->
  exec (env_name a) s0 tr s' ->
  forall fuel, (length tr <= fuel)%nat ->
  exists r i,
    rollout fuel m a = Ok r
    /\ info s' = Some i
    /\ (success r = "success" <->
        (predicted_terminated s' = true /\ info_success i = true)
        \/ obtain_truncation_step_success
             (env_name a) (additional_episode_stats s') i = true)
    /\ (predicted_terminated s' = false ->
        (success r = "success" <->
         obtain_truncation_step_success
           (env_name a) (additional_episode_stats s') i = true)).
Proof.
  intros Hreset Hex fuel Hfuel.
  destruct (reset_episode_init m a Hreset) as (Hc0 & Hs0 & _ & _ & _ & _).
  pose proof (exec_accumulates Hex) as (_ & _ & _ & Hinfo & Hsucc & _).
  assert (Hne : tr <> []).
  { intros ->. inversion Hex; subst. congruence. }
  destruct (info s') as [i|] eqn:Hi; [|now elim (Hinfo Hne)].
  assert (Hflag : (exists st, In st tr /\ terminated_with_success st) <->
                  predicted_terminated s' = true /\ info_success i = true).
  { split.
    - intros (st & Hin & Hp & j & Hj & Hjs).
      assert (st = s') as -> by (eapply exec_flag_last; eassumption).
      assert (j = i) as -> by congruence. auto.
    - intros [Hp His]. exists s'. split; [now apply (exec_final_in Hex)|].
      split; [exact Hp|]. eauto. }
  unfold rollout. rewrite Hreset. cbn [bind].
  rewrite (exec_while_loop Hex Hfuel). cbn [bind].
  unfold truncation_check. rewrite Hi.
  eexists. exists i. split; [reflexivity|]. split; [reflexivity|].
  cbn [success]. rewrite Hs0 in Hsucc.
  destruct (obtain_truncation_step_success _ _ i) eqn:Ho.
  - split; [split; auto|]. intros _. split; auto.
  - rewrite Hsucc, Hflag. split.
    + split.
      * intros [H|H]; [discriminate|now left].
      * intros [H|H]; [now right|discriminate].
    + intros Hp. split.
      * intros [H|[H _]]; [discriminate|congruence].
      * discriminate.
Qed.

(** X4.  The loop has no bound of its own.  When some property of the
    locals makes the loop test true and is kept by every pass (the policy
    never asks to stop and the environment never truncates), the loop is
    still running after any number of passes, and so is the rollout: no
    outcome is ever produced. *)
Theorem while_loop_never_exits (name : string) (I : Locals -> Prop) :
  (forall s, I s ->
     loop_cond s = true /\ exists s1, loop_body name s = Ok s1 /\ I s1) ->
  forall s, I s ->
  forall fuel,
    while_loop name fuel s = Spin
    /\ (forall tr s', ~ exec name s tr s').
Proof.
  intros Hinv s Hs fuel. split.
  - revert s Hs. induction fuel as [|fuel IH]; intros s Hs;
      destruct (Hinv s Hs) as (Hc & s1 & Hb & Hs1); cbn [while_loop];
      rewrite Hc; [reflexivity|].
    rewrite Hb. cbn [bind]. now apply IH.
  - intros tr s' Hex. revert Hs.
    induction Hex as [s Hc|s s1 tr s' Hc Hb Hex IH]; intros Hs;
      destruct (Hinv s Hs) as (Hc' & s2 & Hb' & Hs2); [congruence|].
    apply IH. congruence.
Qed.


(* ------------------------------------------------------------------ *)
(** *** Further properties of the sweep *)

Lemma for_each_collect (A B : Type) (h : A -> list B) (xs : list A)
  (acc : list B) :
  for_each xs (fun x acc => Ok (acc ++ h x)) acc = Ok (acc ++ flat_map h xs).
Proof.
  revert acc. induction xs as [|x xs IH]; intros acc; cbn [for_each flat_map].
  - now rewrite app_nil_r.
  - cbn [bind]. rewrite IH, app_assoc. reflexivity.
Qed.

Lemma map_list_prod (A B C : Type) (f : A * B -> C) (xs : list A)
  (ys : list B) :
  map f (list_prod xs ys) = flat_map (fun x => map (fun y => f (x, y)) ys) xs.
Proof.
  induction xs as [|x xs IH]; [reflexivity|].
  cbn [list_prod flat_map]. now rewrite map_app, map_map, IH.
Qed.

Lemma flat_map_singleton (A B : Type) (f : A -> B) (xs : list A) :
  flat_map (fun x => [f x]) xs = map f xs.
Proof.
  induction xs as [|x xs IH]; [reflexivity|]. cbn. now rewrite IH.
Qed.

Lemma list_prod_nil_r (A B : Type) (xs : list A) :
  list_prod xs (@nil B) = [].
Proof. induction xs as [|x xs IH]; [reflexivity|exact IH]. Qed.

(** The orientation of one (roll, pitch, yaw) triple. *)
Definition quat_of (center : list float) (t : float * (float * float))
  : list float :=
  pose_mul_q (euler2quat (fst t) (fst (snd t)) (snd (snd t))) center.

(** X6.  The orientations.  When the roll, pitch and yaw ranges expand to
    [rs], [ps] and [ys], the orientation list is the composition with the
    center of every (roll, pitch, yaw) triple of their product, roll
    slowest and yaw fastest, so it has as many entries as the product of
    the three counts. *)
Theorem expand_quats_product (rpy center : list float)
  (rs ps ys : list float) :
  parse_range_tuple (firstn 3 rpy) = Ok rs ->
  parse_range_tuple (firstn 3 (skipn 3 rpy)) = Ok ps ->
  parse_range_tuple (skipn 6 rpy) = Ok ys ->
  expand_quats rpy center
    = Ok (map (quat_of center) (list_prod rs (list_prod ps ys)))
  /\ (forall qs, expand_quats rpy center = Ok qs ->
        length qs = (length rs * (length ps * length ys))%nat)
  /\ (forall i j k r p y,
        nth_error rs i = Some r -> nth_error ps j = Some p ->
        nth_error ys k = Some y ->
        forall qs, expand_quats rpy center = Ok qs ->
        nth_error qs (i * (length ps * length ys) + (j * length ys + k))
        = Some (pose_mul_q (euler2quat r p y) center)).
Proof.
  intros Hrs Hps Hys.
  assert (E : expand_quats rpy center
              = Ok (map (quat_of center) (list_prod rs (list_prod ps ys)))).
  { unfold expand_quats. rewrite Hrs. cbn [bind].
    rewrite (for_each_ext rs _
               (fun r quats =>
                  Ok (quats ++
                      flat_map (fun p =>
                        map (fun y => quat_of center (r, (p, y))) ys) ps))).
    - rewrite for_each_collect. cbn [app]. f_equal.
      rewrite map_list_prod. apply flat_map_ext. intros r.
      now rewrite map_list_prod.
    - intros r quats. rewrite Hps. cbn [bind].
      rewrite (for_each_ext ps _
                 (fun p quats =>
                    Ok (quats ++ map (fun y => quat_of center (r, (p, y))) ys))).
      + apply for_each_collect.
      + intros p quats'. rewrite Hys. cbn [bind].
        rewrite (for_each_collect (fun y => [quat_of center (r, (p, y))])).
        now rewrite flat_map_singleton. }
  split; [exact E|]. split.
  - intros qs Hqs. rewrite E in Hqs. injection Hqs as <-.
    now rewrite length_map, !length_prod.
  - intros i j k r p y Hi Hj Hk qs Hqs. rewrite E in Hqs.
    injection Hqs as <-. rewrite nth_error_map.
    pose proof (nth_error_list_prod _ _ _ _ Hj Hk) as H1.
    pose proof (nth_error_list_prod _ _ _ _ Hi H1) as H2.
    rewrite length_prod in H2. rewrite H2. reflexivity.
Qed.

(** X7.  A range is parsed where its loop is entered.  With no roll
    value, or with roll values and no pitch value, the inner ranges are
    never parsed: the orientation list is empty and no error of an inner
    range is raised. *)
Theorem expand_quats_skips_inner_ranges (rpy center : list float) :
  parse_range_tuple (firstn 3 rpy) = Ok []
  \/ (exists rs, parse_range_tuple (firstn 3 rpy) = Ok rs
                 /\ parse_range_tuple (firstn 3 (skipn 3 rpy)) = Ok []) ->
  expand_quats rpy center = Ok [].
Proof.
  intros [H|(rs & Hrs & Hps)]; unfold expand_quats.
  - rewrite H. reflexivity.
  - rewrite Hrs. cbn [bind].
    rewrite (for_each_ext rs _ (fun r quats => Ok (quats ++ []))).
    + rewrite for_each_collect. cbn [app]. f_equal.
      clear. induction rs as [|r rs IH]; [reflexivity|exact IH].
    + intros r quats. rewrite Hps. cbn. now rewrite app_nil_r.
Qed.

(** An inner range that does not parse is an error as soon as the loops
    around it have a value. *)
Lemma expand_quats_pitch_error (rpy center : list float) (r : float)
  (rs : list float) (e : exn) :
  parse_range_tuple (firstn 3 rpy) = Ok (r :: rs) ->
  parse_range_tuple (firstn 3 (skipn 3 rpy)) = Raise e ->
  expand_quats rpy center = Raise e.
Proof.
  intros Hrs Hps. unfold expand_quats. rewrite Hrs. cbn [bind for_each].
  rewrite Hps. reflexivity.
Qed.

Lemma run_inference_unfold (fuel : nat) (cli : CliArgs)
  (xs ys oxs oys : list float) (qs : list (list float)) (m : Policy) :
  parse_range_tuple (robot_init_x_range cli) = Ok xs ->
  parse_range_tuple (robot_init_y_range cli) = Ok ys ->
  parse_range_tuple (obj_init_x_range cli) = Ok oxs ->
  parse_range_tuple (obj_init_y_range cli) = Ok oys ->
  expand_quats (robot_init_rot_rpy_range cli)
               (robot_init_rot_quat_center cli) = Ok qs ->
  load_policy cli = Ok m ->
  run_inference fuel cli
  = for_each (cartesian_product xs ys qs oxs oys)
             (episode fuel cli (get_robot_control_mode (robot cli))) (m, []).
Proof.
  intros Hxs Hys Hoxs Hoys Hqs Hm.
  unfold run_inference. rewrite Hxs, Hys, Hoxs, Hoys, Hqs, Hm.
  cbn [bind]. apply sweep_loops_product.
Qed.

Lemma run_inference_Ok_inv (fuel : nat) (cli : CliArgs) (st : SweepState) :
  run_inference fuel cli = Ok st ->
  exists xs ys oxs oys qs m,
    parse_range_tuple (robot_init_x_range cli) = Ok xs
    /\ parse_range_tuple (robot_init_y_range cli) = Ok ys
    /\ parse_range_tuple (obj_init_x_range cli) = Ok oxs
    /\ parse_range_tuple (obj_init_y_range cli) = Ok oys
    /\ expand_quats (robot_init_rot_rpy_range cli)
                    (robot_init_rot_quat_center cli) = Ok qs
    /\ load_policy cli = Ok m
    /\ for_each (cartesian_product xs ys qs oxs oys)
         (episode fuel cli (get_robot_control_mode (robot cli))) (m, [])
       = Ok st.
Proof.
  intros H. pose proof H as H0. unfold run_inference in H.
  apply bind_Ok_inv in H as (xs & Hxs & H).
  apply bind_Ok_inv in H as (ys & Hys & H).
  apply bind_Ok_inv in H as (oxs & Hoxs & H).
  apply bind_Ok_inv in H as (oys & Hoys & H).
  apply bind_Ok_inv in H as (qs & Hqs & H).
  apply bind_Ok_inv in H as (m & Hm & H).
  exists xs, ys, oxs, oys, qs, m.
  rewrite <- (run_inference_unfold fuel cli Hxs Hys Hoxs Hoys Hqs Hm).
  repeat split; assumption.
Qed.

Lemma for_each_stops (A S : Type) (pre : list A) (x : A) (post : list A)
  (body : A -> S -> res S) (s s1 : S) :
  for_each pre body s = Ok s1 ->
  (forall s2, body x s1 <> Ok s2) ->
  for_each (pre ++ x :: post) body s = body x s1.
Proof.
  intros Hpre Hbad. rewrite for_each_app, Hpre. cbn [bind for_each].
  destruct (body x s1) as [s2| |]; [now elim (Hbad s2)|reflexivity..].
Qed.

(** X8.  The sweep stops at the first episode that does not finish.
    When the episodes of the points before [ic] finish and the episode at
    [ic] raises or never ends, the sweep ends the same way: no later point
    is run, and the outcomes of the earlier episodes are not returned. *)
Theorem sweep_stops_at_first_failure (fuel : nat) (cli : CliArgs)
  (xs ys oxs oys : list float) (qs : list (list float)) (m : Policy)
  (pre : list InitialCondition) (ic : InitialCondition)
  (post : list InitialCondition) (st : SweepState) :
  parse_range_tuple (robot_init_x_range cli) = Ok xs ->
  parse_range_tuple (robot_init_y_range cli) = Ok ys ->
  parse_range_tuple (obj_init_x_range cli) = Ok oxs ->
  parse_range_tuple (obj_init_y_range cli) = Ok oys ->
  expand_quats (robot_init_rot_rpy_range cli)
               (robot_init_rot_quat_center cli) = Ok qs ->
  load_policy cli = Ok m ->
  cartesian_product xs ys qs oxs oys = pre ++ ic :: post ->
  for_each pre (episode fuel cli (get_robot_control_mode (robot cli)))
           (m, []) = Ok st ->
  (forall r, main fuel (fst st)
               (main_args cli (get_robot_control_mode (robot cli)) ic)
             <> Ok r) ->
  (forall st', run_inference fuel cli <> Ok st')
  /\ (forall e, main fuel (fst st)
                  (main_args cli (get_robot_control_mode (robot cli)) ic)
                = Raise e ->
                run_inference fuel cli = Raise e)
  /\ (main fuel (fst st)
        (main_args cli (get_robot_control_mode (robot cli)) ic) = Spin ->
      run_inference fuel cli = Spin).
Proof.
  intros Hxs Hys Hoxs Hoys Hqs Hm Hgrid Hpre Hbad.
  rewrite (run_inference_unfold fuel cli Hxs Hys Hoxs Hoys Hqs Hm), Hgrid.
  assert (Hep : forall s2,
            episode fuel cli (get_robot_control_mode (robot cli)) ic st
            <> Ok s2).
  { intros s2 H. unfold episode in H.
    apply bind_Ok_inv in H as (r & Hr & _). now apply (Hbad r). }
  rewrite (for_each_stops pre ic post _ _ Hpre Hep).
  split; [exact Hep|]. unfold episode.
  split; [intros e ->|intros ->]; reflexivity.
Qed.

(** X9.  An empty range empties the sweep.  When one of the five value
    lists is empty (a count that truncates to zero), the sweep runs no
    episode and returns normally with the policy as loaded. *)
Theorem sweep_empty_grid (fuel : nat) (cli : CliArgs)
  (xs ys oxs oys : list float) (qs : list (list float)) (m : Policy) :
  parse_range_tuple (robot_init_x_range cli) = Ok xs ->
  parse_range_tuple (robot_init_y_range cli) = Ok ys ->
  parse_range_tuple (obj_init_x_range cli) = Ok oxs ->
  parse_range_tuple (obj_init_y_range cli) = Ok oys ->
  expand_quats (robot_init_rot_rpy_range cli)
               (robot_init_rot_quat_center cli) = Ok qs ->
  load_policy cli = Ok m ->
  xs = [] \/ ys = [] \/ qs = [] \/ oxs = [] \/ oys = [] ->
  run_inference fuel cli = Ok (m, []).
Proof.
  intros Hxs Hys Hoxs Hoys Hqs Hm Hempty.
  rewrite (run_inference_unfold fuel cli Hxs Hys Hoxs Hoys Hqs Hm).
  assert (E : cartesian_product xs ys qs oxs oys = []).
  { unfold cartesian_product.
    destruct Hempty as [->|[->|[->|[->| ->]]]];
      cbn [list_prod]; rewrite ?list_prod_nil_r; reflexivity. }
  rewrite E. reflexivity.
Qed.

Lemma main_reset_irrelevant (fuel : nat) (m m' : Policy) (a : MainArgs) :
  (forall t, model_reset m t = model_reset m' t) ->
  main fuel m a = main fuel m' a.
Proof.
  intros Hreset. unfold main, rollout.
  assert (E : reset_episode m a = reset_episode m' a).
  { unfold reset_episode.
    destruct (unpack_mapping (additional_env_build_kwargs a)) as [kw| |];
      cbn [bind]; try reflexivity.
    destruct (build_maniskill2_env (build_args a kw)) as [e task].
    destruct (env_reset e (env_reset_options a)) as [e' obs].
    now rewrite Hreset. }
  now rewrite E.
Qed.

(** X10.  Episodes do not leak into each other through the shared
    policy, provided its reset erases its state: every artifact of a
    finished sweep is the one [main] produces on that initial condition
    from any policy state whatever, in particular from the freshly loaded
    policy. *)
Theorem sweep_episodes_independent (fuel : nat) (cli : CliArgs)
  (st : SweepState) :
  (forall m m' t, model_reset m t = model_reset m' t) ->
  run_inference fuel cli = Ok st ->
  forall ic art, In (ic, art) (snd st) ->
  forall m0, exists m1,
    main fuel m0 (main_args cli (get_robot_control_mode (robot cli)) ic)
    = Ok (m1, art).
Proof.
  intros Hreset Hrun ic art Hin m0.
  apply run_inference_Ok_inv in Hrun
    as (xs & ys & oxs & oys & qs & m & _ & _ & _ & _ & _ & _ & Hrun).
  revert Hrun Hin.
  generalize (cartesian_product xs ys qs oxs oys) as grid.
  assert (G : forall grid s0,
            for_each grid
              (episode fuel cli (get_robot_control_mode (robot cli))) s0
            = Ok st ->
            In (ic, art) (snd st) ->
            In (ic, art) (snd s0) \/
            exists m1,
              main fuel m0
                (main_args cli (get_robot_control_mode (robot cli)) ic)
              = Ok (m1, art)).
  { induction grid as [|p grid IH]; intros s0; cbn [for_each].
    - intros [= <-]. now left.
    - intros H Hin. apply bind_Ok_inv in H as (s1 & Hep & Hrest).
      destruct (IH s1 Hrest Hin) as [Hin1|Hdone]; [|now right].
      unfold episode in Hep. apply bind_Ok_inv in Hep as ([m1 a1] & Hmain & Hs1).
      injection Hs1 as <-. cbn [snd fst] in Hin1.
      apply in_app_or in Hin1 as [Hin1|[Heq|[]]]; [now left|].
      injection Heq as -> ->. right. exists m1.
      rewrite <- Hmain. apply main_reset_irrelevant. intros t. apply Hreset. }
  intros grid Hrun Hin.
  destruct (G grid (m, []) Hrun Hin) as [[]|H]. exact H.
Qed.

(* ------------------------------------------------------------------ *)
(** *** Further properties of the names and of the policy choice *)

Lemma chars_app (a b : string) :
  list_ascii_of_string (a +++ b)
  = list_ascii_of_string a ++ list_ascii_of_string b.
Proof. induction a as [|c a IH]; cbn; [reflexivity|now rewrite IH]. Qed.

Lemma string_app (x y : list ascii) :
  string_of_list_ascii (x ++ y)
  = string_of_list_ascii x +++ string_of_list_ascii y.
Proof. induction x as [|c x IH]; cbn; [reflexivity|now rewrite IH]. Qed.

Lemma append_assoc (a b c : string) : (a +++ b) +++ c = a +++ b +++ c.
Proof. induction a as [|x a IH]; cbn; [reflexivity|now rewrite IH]. Qed.

Lemma chars_inj (a b : string) :
  list_ascii_of_string a = list_ascii_of_string b -> a = b.
Proof.
  intros H. rewrite <- (string_of_list_ascii_of_string a),
    <- (string_of_list_ascii_of_string b). now rewrite H.
Qed.

Lemma prefixb_spec (p s : list ascii) :
  prefixb p s = true <-> exists post, s = p ++ post.
Proof.
  revert s. induction p as [|a p IH]; intros s; cbn.
  - split; [intros _; now exists s|reflexivity].
  - destruct s as [|b s].
    + split; [discriminate|intros (post & H); discriminate].
    + rewrite andb_true_iff, Ascii.eqb_eq, IH. split.
      * intros (-> & post & ->). now exists post.
      * intros (post & H). injection H as -> ->. eauto.
Qed.

Lemma contains_chars_spec (sub s : list ascii) :
  contains_chars sub s = true <-> exists pre post, s = pre ++ sub ++ post.
Proof.
  induction s as [|a s IH]; cbn [contains_chars];
    rewrite orb_true_iff, prefixb_spec.
  - split.
    + intros [(post & H)|H]; [|discriminate]. now exists [], post.
    + intros (pre & post & H). left.
      destruct pre; [now exists post|discriminate].
  - rewrite IH. split.
    + intros [(post & H)|(pre & post & ->)].
      * now exists [], post.
      * now exists (a :: pre), post.
    + intros (pre & post & H). destruct pre as [|b pre].
      * left. now exists post.
      * right. injection H as -> ->. eauto.
Qed.

Lemma contains_spec (sub s : string) :
  contains sub s = true <-> exists pre post, s = pre +++ sub +++ post.
Proof.
  unfold contains. rewrite contains_chars_spec. split.
  - intros (pre & post & H).
    exists (string_of_list_ascii pre), (string_of_list_ascii post).
    apply chars_inj.
    now rewrite H, !chars_app, !list_ascii_of_string_of_list_ascii.
  - intros (pre & post & ->).
    exists (list_ascii_of_string pre), (list_ascii_of_string post).
    now rewrite !chars_app.
Qed.

(** X11.  The choice of the policy.  The model name "rt1" loads the RT-1
    policy from the checkpoint path; any other name that has "octo" as a
    substring loads the Octo policy of that name; every other name, and
    only such a name, raises [NotImplementedError].  The three names the
    command line accepts never raise. *)
Theorem load_policy_spec (cli : CliArgs) :
  (policy_model cli = "rt1" ->
   load_policy cli
   = Ok (RT1Inference (cli_ckpt_path cli) (cli_action_scale cli)))
  /\ (policy_model cli <> "rt1" ->
      (exists pre post, policy_model cli = pre +++ "octo" +++ post) ->
      load_policy cli
      = Ok (OctoInference (policy_model cli) (cli_action_scale cli)))
  /\ (load_policy cli = Raise NotImplementedError <->
      policy_model cli <> "rt1"
      /\ ~ exists pre post, policy_model cli = pre +++ "octo" +++ post)
  /\ (In (policy_model cli) ["rt1"; "octo-base"; "octo-small"] ->
      exists m, load_policy cli = Ok m).
Proof.
  unfold load_policy.
  destruct (String.eqb (policy_model cli) "rt1") eqn:Hrt.
  - apply String.eqb_eq in Hrt.
    split; [reflexivity|]. split; [congruence|]. split; [|eauto].
    split; [discriminate|intros [H _]; congruence].
  - apply String.eqb_neq in Hrt.
    destruct (contains "octo" (policy_model cli)) eqn:Hoc.
    + apply contains_spec in Hoc.
      split; [congruence|]. split; [reflexivity|]. split; [|eauto].
      split; [discriminate|intros [_ H]; now elim H].
    + assert (Hno : ~ exists pre post,
                policy_model cli = pre +++ "octo" +++ post).
      { intros H. apply contains_spec in H. congruence. }
      split; [congruence|]. split; [intros _ H; now elim Hno|].
      split; [split; [auto|reflexivity]|].
      intros [H|[H|[H|[]]]]; [congruence| |]; rewrite <- H in Hoc;
        vm_compute in Hoc; discriminate.
Qed.

Lemma split_chars_nonempty (sep : ascii) (s : list ascii) :
  split_chars sep s <> [].
Proof.
  destruct s as [|a s]; cbn; [discriminate|].
  destruct (Ascii.eqb a sep); [discriminate|].
  destruct (split_chars sep s); discriminate.
Qed.

Lemma split_chars_no_sep (sep : ascii) (s : list ascii) :
  forall w, In w (split_chars sep s) -> ~ In sep w.
Proof.
  induction s as [|a s IH]; cbn.
  - intros w [<-|[]] [].
  - destruct (Ascii.eqb a sep) eqn:Ha.
    + intros w [<-|Hin]; [intros []|now apply IH].
    + apply Ascii.eqb_neq in Ha.
      destruct (split_chars sep s) as [|w0 ws] eqn:Hs.
      * intros w [<-|[]] [H|[]]. congruence.
      * intros w [<-|Hin].
        -- intros [H|H]; [congruence|]. apply (IH w0); [now left|exact H].
        -- apply IH. now right.
Qed.

Lemma last_in (A : Type) (l : list A) (d : A) : l <> [] -> In (last l d) l.
Proof.
  induction l as [|a l IH]; [congruence|]. intros _.
  destruct l as [|b l]; [now left|].
  right. apply IH. discriminate.
Qed.

Lemma last_map_comm (A B : Type) (f : A -> B) (l : list A) (d : A) :
  last (map f l) (f d) = f (last l d).
Proof.
  induction l as [|a l IH]; [reflexivity|].
  destruct l as [|b l]; [reflexivity|exact IH].
Qed.

Lemma split_last_chars (sep : ascii) (s : string) :
  list_ascii_of_string (split_last sep s)
  = last (split_chars sep (list_ascii_of_string s)) [].
Proof.
  unfold split_last, split.
  change EmptyString with (string_of_list_ascii []).
  now rewrite last_map_comm, list_ascii_of_string_of_list_ascii.
Qed.

Lemma split_last_no_sep (sep : ascii) (s : string) :
  ~ In sep (list_ascii_of_string (split_last sep s)).
Proof.
  rewrite split_last_chars.
  apply (split_chars_no_sep sep (list_ascii_of_string s)).
  apply last_in, split_chars_nonempty.
Qed.

Lemma last_char_snoc (p : string) (c : ascii) :
  last_char (p +++ String c EmptyString) = Ok c.
Proof.
  unfold last_char. rewrite chars_app, rev_app_distr. reflexivity.
Qed.

Lemma drop_last_snoc (p : string) (c : ascii) :
  drop_last (p +++ String c EmptyString) = p.
Proof.
  unfold drop_last. rewrite chars_app. cbn [list_ascii_of_string].
  rewrite removelast_last. apply string_of_list_ascii_of_string.
Qed.

Lemma string_snoc (p : string) :
  p <> EmptyString -> exists q c, p = q +++ String c EmptyString.
Proof.
  intros Hne.
  destruct (list_ascii_of_string p) as [|a l] eqn:Hp.
  - elim Hne. apply chars_inj. exact Hp.
  - destruct (@exists_last _ (a :: l) ltac:(discriminate)) as (q & c & Hq).
    exists (string_of_list_ascii q), c. apply chars_inj.
    rewrite Hp, Hq, chars_app, list_ascii_of_string_of_list_ascii.
    reflexivity.
Qed.

(** X12.  The checkpoint name.  An empty checkpoint path raises
    [IndexError]; any other path has a name, which holds no slash; and one
    trailing slash does not change the name. *)
Theorem ckpt_path_basename_spec :
  ckpt_path_basename "" = Raise IndexError
  /\ (forall p, p <> "" ->
      exists b, ckpt_path_basename p = Ok b
                /\ ~ In "/"%char (list_ascii_of_string b))
  /\ (forall p c, c <> "/"%char ->
      ckpt_path_basename ((p +++ String c "") +++ "/")
      = ckpt_path_basename (p +++ String c "")).
Proof.
  split; [reflexivity|]. split.
  - intros p Hne. apply string_snoc in Hne as (q & c & ->).
    unfold ckpt_path_basename. rewrite last_char_snoc. cbn [bind].
    eexists. split; [reflexivity|]. apply split_last_no_sep.
  - intros p c Hc. unfold ckpt_path_basename.
    change "/" with (String "/"%char "") at 1.
    rewrite !last_char_snoc. cbn [bind].
    rewrite Ascii.eqb_refl.
    apply Ascii.eqb_neq in Hc. rewrite Hc.
    change "/" with (String "/"%char ""). now rewrite drop_last_snoc.
Qed.

Lemma rollout_raises_only (fuel : nat) (m : Policy) (a : MainArgs) (e : exn) :
  rollout fuel m a = Raise e -> e = TypeError \/ e = IndexError.
Proof.
  unfold rollout.
  destruct (reset_episode m a) as [s0|e0|] eqn:Hreset; cbn [bind];
    [| |discriminate].
  - destruct (while_loop (env_name a) fuel s0) as [s'|e1|] eqn:Hw;
      cbn [bind]; [| |discriminate].
    + unfold truncation_check. destruct (info s') eqn:Hi; [discriminate|].
      exfalso. apply while_loop_exec in Hw as (tr & _ & Hex).
      pose proof (exec_accumulates Hex) as (_ & _ & _ & Hinfo & _).
      destruct (reset_episode_init m a Hreset) as (Hc0 & _).
      apply Hinfo; [|exact Hi]. intros ->. inversion Hex; subst. congruence.
    + intros [= <-]. right. now apply (while_loop_raises _ _ _ Hw).
  - intros [= <-]. left. apply (proj1 (reset_episode_failure m a) _ Hreset).
Qed.

Lemma rollout_Ok_kwargs (fuel : nat) (m : Policy) (a : MainArgs) (s : Locals) :
  rollout fuel m a = Ok s ->
  exists kw, additional_env_build_kwargs a = Some kw.
Proof.
  unfold rollout, reset_episode.
  destruct (additional_env_build_kwargs a) as [kw|]; [eauto|discriminate].
Qed.

(** X13.  What [main] needs to write its artifacts.  [main] raises only
    [TypeError] or [IndexError] and is still running exactly when the
    rollout is; after a finished rollout it writes the frames and raw
    actions of that rollout when the checkpoint path is not empty, and with
    an empty checkpoint path it raises [IndexError] instead, after the whole
    episode has been simulated. *)
Theorem main_result (fuel : nat) (m : Policy) (a : MainArgs) :
  (forall e, main fuel m a = Raise e -> e = TypeError \/ e = IndexError)
  /\ (main fuel m a = Spin <-> rollout fuel m a = Spin)
  /\ (forall s, rollout fuel m a = Ok s ->
        (ckpt_path a = "" -> main fuel m a = Raise IndexError)
        /\ (ckpt_path a <> "" ->
            exists art,
              main fuel m a = Ok (model s, art)
              /\ video_frames art = images s
              /\ actions_frames art = images s
              /\ actions_raw art = predicted_actions s
              /\ video_fps art = 5)).
Proof.
  assert (Hv : forall s kw,
            additional_env_build_kwargs a = Some kw ->
            (ckpt_path a = "" ->
             video_path a (success s) (additional_episode_stats s)
             = Raise IndexError)
            /\ (ckpt_path a <> "" ->
                exists v, video_path a (success s)
                            (additional_episode_stats s) = Ok v)).
  { intros s kw Hkw. unfold video_path. rewrite Hkw. cbn [items bind].
    split.
    - intros ->. reflexivity.
    - intros Hne. apply string_snoc in Hne as (q & c & ->).
      unfold ckpt_path_basename. rewrite last_char_snoc. cbn [bind]. eauto. }
  unfold main.
  destruct (rollout fuel m a) as [s|e0|] eqn:Hr; cbn [bind].
  - destruct (rollout_Ok_kwargs _ _ _ Hr) as (kw & Hkw).
    destruct (Hv s kw Hkw) as (Hempty & Hfull).
    destruct (String.eqb (ckpt_path a) "") eqn:Hck.
    + apply String.eqb_eq in Hck. rewrite (Hempty Hck). cbn [bind].
      split; [intros e [= <-]; now right|].
      split; [split; discriminate|].
      intros s1 [= <-]. split; [reflexivity|congruence].
    + apply String.eqb_neq in Hck. destruct (Hfull Hck) as (v & ->).
      cbn [bind]. destruct (action_paths v) as [root path].
      split; [discriminate|]. split; [split; discriminate|].
      intros s1 [= <-]. split; [congruence|]. intros _.
      eexists. split; [reflexivity|]. cbn. repeat split.
  - split; [intros e [= <-]; now apply (rollout_raises_only _ _ _ Hr)|].
    split; [split; discriminate|]. discriminate.
  - split; [discriminate|]. split; [split; reflexivity|]. discriminate.
Qed.

(** X14.  The orientation is in no name.  Two episodes of a sweep whose
    initial conditions agree on the robot and object positions, and differ
    at most in the robot orientation, write to the same video and action
    files whenever they end with the same outcome and statistics: the
    later one overwrites the earlier one. *)
Theorem orientation_not_in_names (fuel : nat) (cli : CliArgs) (mode : string)
  (ic1 ic2 : InitialCondition) (m1 m2 m1' m2' : Policy)
  (art1 art2 : Artifacts) (s1 s2 : Locals) :
  robot_x ic1 = robot_x ic2 -> robot_y ic1 = robot_y ic2 ->
  object_x ic1 = object_x ic2 -> object_y ic1 = object_y ic2 ->
  rollout fuel m1 (main_args cli mode ic1) = Ok s1 ->
  rollout fuel m2 (main_args cli mode ic2) = Ok s2 ->
  success s1 = success s2 ->
  additional_episode_stats s1 = additional_episode_stats s2 ->
  main fuel m1 (main_args cli mode ic1) = Ok (m1', art1) ->
  main fuel m2 (main_args cli mode ic2) = Ok (m2', art2) ->
  video_file art1 = video_file art2
  /\ actions_dir art1 = actions_dir art2
  /\ actions_file art1 = actions_file art2.
Proof.
  intros Hx Hy Hox Hoy Hr1 Hr2 Hs Hst Hm1 Hm2.
  apply main_artifact_paths in Hm1 as (s1' & Hr1' & Hv1 & Hp1 & _).
  apply main_artifact_paths in Hm2 as (s2' & Hr2' & Hv2 & Hp2 & _).
  assert (s1' = s1) as -> by congruence.
  assert (s2' = s2) as -> by congruence.
  assert (E : video_file art1 = video_file art2).
  { assert (EV : video_path (main_args cli mode ic1) (success s1)
                   (additional_episode_stats s1)
                 = video_path (main_args cli mode ic2) (success s2)
                     (additional_episode_stats s2)).
    { unfold video_path, main_args. cbn. now rewrite Hx, Hy, Hox, Hoy, Hs, Hst. }
    congruence. }
  split; [exact E|]. rewrite E in Hp1. rewrite <- Hp2 in Hp1.
  injection Hp1 as -> ->. split; reflexivity.
Qed.

Lemma replace_mp4_end (s : list ascii) :
  forall k, (k <= length s)%nat ->
  exists t,
    replace_chars (list_ascii_of_string ".mp4") (list_ascii_of_string ".png")
                  k (s ++ list_ascii_of_string ".mp4")
    = t ++ list_ascii_of_string ".png".
Proof.
  induction s as [|a s IH]; intros k Hk.
  - assert (k = 0)%nat as -> by (simpl in Hk; lia). now exists [].
  - destruct k as [|k].
    + cbn [app replace_chars].
      destruct (prefixb (list_ascii_of_string ".mp4")
                  (a :: s ++ list_ascii_of_string ".mp4")) eqn:Hp.
      * assert (Hlen : (3 <= length s)%nat).
        { destruct s as [|b [|c [|d s]]]; [| | |simpl; lia]; exfalso;
            revert Hp; cbn [prefixb app list_ascii_of_string];
            repeat match goal with
            | |- context [Ascii.eqb ?x ?y] =>
                is_var y; destruct (Ascii.eqb x y)
            end; cbn; discriminate. }
        destruct (IH 3%nat Hlen) as (t & Ht).
        exists (list_ascii_of_string ".png" ++ t).
        change (length (list_ascii_of_string ".mp4") - 1)%nat with 3%nat.
        now rewrite Ht, app_assoc.
      * destruct (IH 0%nat ltac:(lia)) as (t & Ht).
        exists (a :: t). now rewrite Ht.
    + cbn [app replace_chars]. apply IH. simpl in Hk. lia.
Qed.

Lemma split_chars_no_sep_id (sep : ascii) (w : list ascii) :
  ~ In sep w -> split_chars sep w = [w].
Proof.
  induction w as [|a w IH]; intros Hn; cbn; [reflexivity|].
  destruct (Ascii.eqb a sep) eqn:Ha.
  - apply Ascii.eqb_eq in Ha. elim Hn. now left.
  - rewrite IH; [reflexivity|]. intros H. apply Hn. now right.
Qed.

Lemma split_chars_app_tail (sep : ascii) (t w : list ascii) :
  ~ In sep w ->
  split_chars sep (t ++ w)
  = removelast (split_chars sep t) ++ [last (split_chars sep t) [] ++ w].
Proof.
  intros Hn. induction t as [|a t IH].
  - cbn. now apply split_chars_no_sep_id.
  - cbn [app split_chars]. rewrite IH.
    pose proof (split_chars_nonempty sep t) as Hne.
    destruct (split_chars sep t) as [|w0 ws]; [congruence|].
    destruct (Ascii.eqb a sep).
    + reflexivity.
    + destruct ws as [|w1 ws]; reflexivity.
Qed.

Lemma basename_app_tail (t w : string) :
  ~ In "/"%char (list_ascii_of_string w) ->
  basename (t +++ w) = basename t +++ w.
Proof.
  intros Hn. apply chars_inj. unfold basename.
  rewrite chars_app, !split_last_chars, chars_app.
  rewrite (@split_chars_app_tail _ _ _ Hn). now rewrite last_last.
Qed.

Lemma app_suffix_eq (A : Type) (x y a b : list A) :
  x ++ a = y ++ b -> length a = length b -> a = b.
Proof.
  intros H Hl. apply (f_equal (@rev A)) in H. rewrite !rev_app_distr in H.
  apply (f_equal (firstn (length (rev a)))) in H.
  rewrite firstn_app, firstn_all, Nat.sub_diag, firstn_O, app_nil_r in H.
  rewrite !length_rev, Hl, <- (length_rev b) in H.
  rewrite firstn_app, firstn_all, Nat.sub_diag, firstn_O, app_nil_r in H.
  apply (f_equal (@rev A)) in H. now rewrite !rev_involutive in H.
Qed.

Lemma Ok_inj (A : Type) (x y : A) : Ok x = Ok y -> x = y.
Proof. now intros [= ->]. Qed.

Lemma ends_app (sfx y x : string) :
  (exists stem, x = stem +++ sfx) -> exists stem, y +++ x = stem +++ sfx.
Proof.
  intros (stem & ->). exists (y +++ stem). now rewrite append_assoc.
Qed.

(** X15.  The two files of an episode.  The video path of a finished
    [main] starts with the results root chosen by [tmp_exp] and ends in
    ".mp4"; the action plot lies in a directory that ends in "/actions/",
    its path ends in ".png", and it is never the video file. *)
Theorem main_artifact_extensions (fuel : nat) (m m' : Policy) (a : MainArgs)
  (art : Artifacts) :
  main fuel m a = Ok (m', art) ->
  (exists stem,
     video_file art
     = (if tmp_exp a then "results_tmp/" else "results/") +++ stem +++ ".mp4")
  /\ (exists d, actions_dir art = d +++ "/actions/")
  /\ (exists u, actions_file art = actions_dir art +++ u +++ ".png")
  /\ actions_file art <> video_file art.
Proof.
  intros Hm.
  apply main_artifact_paths in Hm as (s & _ & Hv & Hp & _).
  assert (Hvid : exists stem,
            video_file art
            = (if tmp_exp a then "results_tmp/" else "results/")
              +++ stem +++ ".mp4").
  { unfold video_path in Hv.
    apply bind_Ok_inv in Hv as (kw & _ & Hv).
    apply bind_Ok_inv in Hv as (base & _ & Hv).
    cbv zeta in Hv. apply Ok_inj in Hv.
    match type of Hv with
    | (if _ then _ +++ ?p else _) = _ =>
        assert (Hend : exists stem, p = stem +++ ".mp4")
          by (do 14 apply ends_app; eexists; reflexivity)
    end.
    destruct Hend as (stem & Hend). exists stem.
    rewrite <- Hv, Hend. destruct (tmp_exp a); reflexivity. }
  unfold action_paths in Hp. injection Hp as Hd Hf.
  destruct Hvid as (stem & Hvid).
  assert (Hrep : exists t,
            replace ".mp4" ".png" (video_file art) = t +++ ".png").
  { rewrite Hvid, <- append_assoc. unfold replace. rewrite chars_app.
    destruct (@replace_mp4_end
                (list_ascii_of_string
                   ((if tmp_exp a then "results_tmp/" else "results/")
                    +++ stem)) 0%nat ltac:(lia)) as (t & Ht).
    exists (string_of_list_ascii t). rewrite Ht, string_app. reflexivity. }
  destruct Hrep as (t & Hrep).
  split; [eauto|]. split; [rewrite Hd; eauto|]. split.
  - exists (basename t). rewrite Hf, Hd, Hrep. f_equal.
    apply basename_app_tail. cbn. intros [H|[H|[H|[H|[]]]]]; discriminate.
  - rewrite Hf, Hrep, Hvid.
    rewrite (basename_app_tail t ".png")
      by (cbn; intros [H|[H|[H|[H|[]]]]]; discriminate).
    rewrite <- !append_assoc. intros E.
    apply (f_equal list_ascii_of_string) in E. rewrite !chars_app in E.
    apply app_suffix_eq in E; [discriminate|reflexivity].
Qed.

End Rollout.

(* ------------------------------------------------------------------ *)
(** ** A small simulator and policy, and the theorems at work on them *)

Import String Ascii Str.
#[local] Abbreviation length := List.length.
#[local] Open Scope string_scope.
#[local] Open Scope list_scope.

(** The simulator counts its steps, is truncated at the step ceiling it
    was built with, reports [done] at every step, marks success from step
    [success_from] on, and keeps the action vectors it received. *)
Record ToyEnv : Type := {
  steps : nat;
  step_limit : nat;
  received : list (list float)
}.

Definition toy_build (b : BuildArgs bool) : ToyEnv * string :=
  ({| steps := 0; step_limit := Z.to_nat (b_max_episode_steps b);
      received := [] |},
   b_env_name b).

Definition toy_reset (e : ToyEnv) (o : ResetOptions) : ToyEnv * nat :=
  ({| steps := 0; step_limit := step_limit e; received := [] |}, 0%nat).

Definition toy_gripper (e : ToyEnv) : float := 0%float.

Definition toy_step (success_from : nat) (e : ToyEnv) (v : list float)
  : ToyEnv * StepResult nat bool :=
  let n := S (steps e) in
  ({| steps := n; step_limit := step_limit e;
      received := received e ++ [v] |},
   {| step_obs := n;
      step_reward := 0%float;
      step_done := true;
      step_truncated := Nat.leb (step_limit e) n;
      step_info := Nat.leb success_from n |}).

(** The policy counts the steps of the episode and asks to stop from step
    [stop_at] on. *)
Definition toy_model_reset (p : nat) (task : string) : nat := 0%nat.

Definition toy_model_step (stop_at : nat) (p : nat) (img : nat) (g : float)
  : nat * (nat * Action) :=
  (S p,
   (S p,
    {| world_vector := [1%float; 2%float; 3%float];
       rot_axangle := [4%float; 5%float; 6%float];
       gripper := [7%float];
       terminate_episode :=
         [if Nat.leb stop_at (S p) then 1%float else 0%float] |})).

Definition toy_init_stats (name : string) : Dict bool := [].

Definition toy_update_stats (name : string) (st : Dict bool)
  (i : bool) : Dict bool := st.

(** At truncation the "Reach" task counts the last info record. *)
Definition toy_truncation_success (name : string) (st : Dict bool)
  (i : bool) : bool :=
  String.eqb name "Reach" && i.

Definition toy_py_str (b : bool) : string :=
  if b then "True" else "False".

Definition toy_str_float (x : float) : string :=
  if (x =? 0.35)%float then "0.35"
  else if (x =? 0.2)%float then "0.2"
  else if (x =? -0.35)%float then "-0.35"
  else if (x =? -0.02)%float then "-0.02"
  else "0.0".

Definition toy_args (limit : Z) : MainArgs bool := {|
  ckpt_path := "checkpoints/rt1/";
  robot_name := "google_robot_static";
  env_name := "GraspSingleCokeCanInScene-v0";
  scene_name := "google_pick_coke_can_1_v4";
  robot_init_x := 0.35%float;
  robot_init_y := 0.2%float;
  robot_init_quat := [1%float; 0%float; 0%float; 0%float];
  obj_init_x := (-0.35)%float;
  obj_init_y := (-0.02)%float;
  control_mode := "arm_pd_ee_delta_pose";
  additional_env_build_kwargs := Some [("lr_switch", true)];
  rgb_overlay_path := None;
  tmp_exp := false;
  control_freq := 3;
  sim_freq := 513;
  max_episode_steps := limit;
  instruction := None;
  action_scale := 1%float
|}.

Definition toy_reset_episode (m : nat) (a : MainArgs bool) :=
  reset_episode nat bool toy_build toy_reset (fun o : nat => o)
                toy_model_reset toy_init_stats m a.

Definition toy_loop_body (success_from stop_at : nat) :=
  loop_body toy_gripper (toy_step success_from) (fun o : nat => o)
            (fun i : bool => i) (toy_model_step stop_at) toy_update_stats.

Definition toy_while_loop (success_from stop_at : nat) :=
  while_loop toy_gripper (toy_step success_from) (fun o : nat => o)
             (fun i : bool => i) (toy_model_step stop_at) toy_update_stats.

Definition toy_rollout (success_from stop_at : nat) :=
  rollout toy_build toy_reset toy_gripper (toy_step success_from)
          (fun o : nat => o) (fun i : bool => i) toy_model_reset
          (toy_model_step stop_at) toy_init_stats toy_update_stats
          toy_truncation_success.

Definition toy_main (success_from stop_at : nat) :=
  main toy_py_str toy_str_float toy_build toy_reset toy_gripper
       (toy_step success_from) (fun o : nat => o) (fun i : bool => i)
       toy_model_reset (toy_model_step stop_at) toy_init_stats
       toy_update_stats toy_truncation_success.

(** The policy stops at step 2, the task is solved from step 2 on, the
    ceiling is 80: two passes, success, three frames, and the paths. *)
Example toy_main_success :
  exists m art,
    toy_main 2 2 80 0%nat (toy_args 80) = Ok (m, art)
    /\ video_frames art = [0; 1; 2]%nat
    /\ actions_raw art = [1; 2]%nat
    /\ video_file art =
       "results/rt1/google_pick_coke_can_1_v4/arm_pd_ee_delta_pose/"
       +++ "GraspSingleCokeCanInScene-v0_lr_switch_True/"
       +++ "rob_0.35_0.2_rgb_overlay_None/success_obj_-0.35_-0.02.mp4"
    /\ actions_file art =
       "results/rt1/google_pick_coke_can_1_v4/arm_pd_ee_delta_pose/"
       +++ "GraspSingleCokeCanInScene-v0_lr_switch_True/"
       +++ "rob_0.35_0.2_rgb_overlay_None/actions/"
       +++ "success_obj_-0.35_-0.02.png".
Proof. do 2 eexists. vm_compute. repeat split; reflexivity. Qed.

(** The policy never stops and the ceiling is 3: the environment reports
    [done] from the first step on, yet the loop runs until truncation. *)
Example toy_rollout_truncated :
  exists r,
    toy_rollout 9 9 5 0%nat (toy_args 3) = Ok r
    /\ success r = "failure"
    /\ timestep r = 3
    /\ predicted_terminated r = false /\ truncated r = true
    /\ toy_rollout 9 9 2 0%nat (toy_args 3) = Spin.
Proof. eexists. vm_compute. repeat split; reflexivity. Qed.

(** Without [--additional-env-build-kwargs] the build call raises. *)
Example toy_main_no_kwargs :
  toy_main 2 2 80 0%nat
    {| ckpt_path := "ckpt"; robot_name := "";
       env_name := ""; scene_name := "";
       robot_init_x := 0%float; robot_init_y := 0%float;
       robot_init_quat := []; obj_init_x := 0%float; obj_init_y := 0%float;
       control_mode := ""; additional_env_build_kwargs := None;
       rgb_overlay_path := None; tmp_exp := false; control_freq := 3;
       sim_freq := 513; max_episode_steps := 80; instruction := None;
       action_scale := 1%float |}
  = Raise TypeError.
Proof. reflexivity. Qed.

Definition toy_exec (success_from stop_at : nat) :=
  exec toy_gripper (toy_step success_from) (fun o : nat => o)
       (fun i : bool => i) (toy_model_step stop_at) toy_update_stats.

(** The reset locals of the toy episode with ceiling [limit]. *)
Definition toy_s0 (limit : nat) : Locals ToyEnv nat nat nat bool bool := {|
  env := {| steps := 0; step_limit := limit; received := [] |};
  model := 0%nat;
  image := 0%nat;
  images := [0%nat];
  predicted_actions := [];
  predicted_terminated := false;
  done := false;
  truncated := false;
  info := None;
  additional_episode_stats := [];
  timestep := 0;
  success := "failure"
|}.

Lemma toy_reset_s0 : toy_reset_episode 0%nat (toy_args 80) = Ok (toy_s0 80).
Proof. reflexivity. Qed.

Lemma rollout_outcome_witness :
  exists r, toy_rollout 2 2 7 0%nat (toy_args 80) = Ok r
            /\ success r = "success".
Proof.
  eassert (Hex : toy_exec 2 2 (env_name (toy_args 80)) (toy_s0 80) _ _).
  { eapply exec_pass; [reflexivity|vm_compute; reflexivity|].
    eapply exec_pass; [reflexivity|vm_compute; reflexivity|].
    apply exec_exit. reflexivity. }
  destruct (@rollout_outcome _ _ _ _ _ _ _ _
              toy_build toy_reset toy_gripper (toy_step 2) (fun o : nat => o)
              (fun i : bool => i) toy_model_reset (toy_model_step 2)
              toy_init_stats toy_update_stats toy_truncation_success
              0%nat (toy_args 80) (toy_s0 80) _ _
              eq_refl Hex 7%nat ltac:(simpl; lia))
    as (r & i & Hr & _ & Hiff & _).
  exists r. split; [exact Hr|].
  apply Hiff. left. eexists. split; [right; left; reflexivity|].
  split; [reflexivity|]. eexists. split; reflexivity.
Defined.

(** The locals of the toy episode with ceiling 3 and a policy that never
    stops, when the loop exits. *)
Definition toy_s3 : Locals ToyEnv nat nat nat bool bool :=
  Eval vm_compute in
    match toy_while_loop 9 9 "" 5 (toy_s0 3) with
    | Ok s => s
    | _ => toy_s0 3
    end.

Lemma loop_exits_on_flags_only_witness :
  exists tr,
    toy_exec 9 9 "" (toy_s0 3) tr toy_s3
    /\ (predicted_terminated toy_s3 = true \/ truncated toy_s3 = true)
    /\ (forall st, In st (removelast (toy_s0 3 :: tr)) ->
          predicted_terminated st = false /\ truncated st = false).
Proof.
  destruct (@loop_exits_on_flags_only _ _ _ _ _ _ _
              toy_gripper (toy_step 9) (fun o : nat => o) (fun i : bool => i)
              (toy_model_step 9) toy_update_stats "" 5%nat (toy_s0 3) toy_s3
              ltac:(vm_compute; reflexivity))
    as (tr & Hex & Hflags & Hinner & _).
  exists tr. split; [exact Hex|]. split; [exact Hflags|exact Hinner].
Defined.

Lemma predicted_terminated_iff_witness :
  exists s1,
    toy_loop_body 1 1 "" (toy_s0 80) = Ok s1
    /\ predicted_terminated s1 = true
    /\ is_positive 1%float.
Proof.
  destruct (@predicted_terminated_iff _ _ _ _ _ _ _
              toy_gripper (toy_step 1) (fun o : nat => o) (fun i : bool => i)
              (toy_model_step 1) toy_update_stats "" (toy_s0 80)
              _ _ _ 1%float [] eq_refl eq_refl)
    as (s1 & Hb & Hpt & Hiff).
  exists s1. split; [exact Hb|].
  assert (Hp : predicted_terminated s1 = true) by (rewrite Hpt; reflexivity).
  split; [exact Hp|]. apply Hiff. exact Hp.
Defined.

Lemma env_step_receives_concatenation_witness :
  exists s1,
    toy_loop_body 1 1 "" (toy_s0 80) = Ok s1
    /\ received (env s1)
       = [[1%float; 2%float; 3%float; 4%float; 5%float; 6%float; 7%float]].
Proof.
  destruct (@env_step_receives_concatenation _ _ _ _ _ _ _
              toy_gripper (toy_step 1) (fun o : nat => o) (fun i : bool => i)
              (toy_model_step 1) toy_update_stats "" (toy_s0 80)
              _ _ _ eq_refl ltac:(discriminate))
    as (s1 & Hb & _ & Henv & _).
  exists s1. split; [exact Hb|]. rewrite Henv. reflexivity.
Defined.

Lemma terminate_on_first_step_witness :
  exists r,
    toy_rollout 1 1 4 0%nat (toy_args 80) = Ok r
    /\ success r = "success"
    /\ length (images r) = 2%nat.
Proof.
  destruct (@terminate_on_first_step _ _ _ _ _ _ _ _
              toy_build toy_reset toy_gripper (toy_step 1) (fun o : nat => o)
              (fun i : bool => i) toy_model_reset (toy_model_step 1)
              toy_init_stats toy_update_stats toy_truncation_success
              0%nat (toy_args 80) (toy_s0 80) _ _ _ 1%float [] _ _
              eq_refl eq_refl eq_refl eq_refl eq_refl eq_refl
              4%nat ltac:(lia))
    as (r & Hr & Hs & Hi & _).
  exists r. repeat split; assumption.
Defined.

Lemma video_path_deterministic_witness :
  video_path toy_py_str toy_str_float (toy_args 80) "success" []
  = video_path toy_py_str toy_str_float
      {| ckpt_path := "checkpoints/rt1/";
         robot_name := "widowx";
         env_name := "GraspSingleCokeCanInScene-v0";
         scene_name := "google_pick_coke_can_1_v4";
         robot_init_x := 0.35%float;
         robot_init_y := 0.2%float;
         robot_init_quat := [0%float; 0%float; 0%float; 1%float];
         obj_init_x := (-0.35)%float;
         obj_init_y := (-0.02)%float;
         control_mode := "arm_pd_ee_delta_pose";
         additional_env_build_kwargs := Some [("lr_switch", true)];
         rgb_overlay_path := None;
         tmp_exp := false;
         control_freq := 5;
         sim_freq := 500;
         max_episode_steps := 40;
         instruction := Some "pick coke can";
         action_scale := 2%float |}
      "success" [].
Proof.
  apply (@video_path_deterministic bool toy_py_str toy_str_float);
    reflexivity.
Defined.

(** With a step ceiling the toy episode always finishes: the fuel
    [limit + 1] is enough, whatever the policy does. *)
Lemma toy_while_loop_total (success_from stop_at limit : nat)
  (name : string) :
  exists s', toy_while_loop success_from stop_at name (S limit) (toy_s0 limit)
             = Ok s'.
Proof.
  apply (@while_loop_total _ _ _ _ _ _ _ toy_gripper (toy_step success_from)
           (fun o : nat => o) (fun i : bool => i) (toy_model_step stop_at)
           toy_update_stats name
           (fun s => (step_limit (env s) - steps (env s))%nat)).
  - intros s Hc. eexists. split; [reflexivity|].
    unfold loop_cond. cbn. intros H.
    apply negb_true_iff, orb_false_iff in H as [_ H].
    apply Nat.leb_gt in H. lia.
  - cbn. lia.
Qed.

(** The default command line: one robot pose, a 5 x 5 grid of object
    positions. *)
Definition toy_cli : CliArgs bool := {|
  policy_model := "rt1";
  cli_ckpt_path := "checkpoints/rt1/";
  cli_env_name := "GraspSingleCokeCanInScene-v0";
  cli_scene_name := "google_pick_coke_can_1_v4";
  robot := "google_robot_static";
  gpu_id := 0;
  cli_action_scale := 1%float;
  cli_control_freq := 3;
  cli_sim_freq := 513;
  cli_max_episode_steps := 80;
  cli_rgb_overlay_path := None;
  robot_init_x_range := [0.35%float; 0.35%float; 1%float];
  robot_init_y_range := [0.2%float; 0.2%float; 1%float];
  robot_init_rot_quat_center := [1%float; 0%float; 0%float; 0%float];
  robot_init_rot_rpy_range :=
    [0%float; 0%float; 1%float; 0%float; 0%float; 1%float;
     0%float; 0%float; 1%float];
  obj_init_x_range := [(-0.35)%float; (-0.12)%float; 5%float];
  obj_init_y_range := [(-0.02)%float; 0.42%float; 5%float];
  cli_additional_env_build_kwargs := Some []
|}.

Definition toy_control_mode (robot : string) : string :=
  "arm_pd_ee_delta_pose".

Definition toy_euler2quat (r p y : float) : list float :=
  [1%float; r; p; y].

Definition toy_pose_mul_q (a b : list float) : list float := a.

Definition toy_policy (path : string) (scale : float) : nat := 0%nat.

Definition toy_run_inference (success_from stop_at : nat) :=
  run_inference toy_py_str toy_str_float toy_build toy_reset toy_gripper
    (toy_step success_from) (fun o : nat => o) (fun i : bool => i)
    toy_model_reset (toy_model_step stop_at) toy_init_stats toy_update_stats
    toy_truncation_success toy_control_mode toy_euler2quat toy_pose_mul_q
    toy_policy toy_policy.

Lemma sweep_visits_product_witness :
  exists xs ys qs oxs oys,
    parse_range_tuple (robot_init_x_range toy_cli) = Ok xs
    /\ parse_range_tuple (robot_init_y_range toy_cli) = Ok ys
    /\ parse_range_tuple (obj_init_x_range toy_cli) = Ok oxs
    /\ parse_range_tuple (obj_init_y_range toy_cli) = Ok oys
    /\ length (cartesian_product xs ys qs oxs oys) = 25%nat
    /\ forall st, toy_run_inference 2 2 80 toy_cli = Ok st ->
                  map fst (snd st) = cartesian_product xs ys qs oxs oys.
Proof.
  do 5 eexists.
  split; [vm_compute; reflexivity|].
  split; [vm_compute; reflexivity|].
  split; [vm_compute; reflexivity|].
  split; [vm_compute; reflexivity|].
  eassert (Hq : expand_quats toy_euler2quat toy_pose_mul_q
                  (robot_init_rot_rpy_range toy_cli)
                  (robot_init_rot_quat_center toy_cli) = Ok _)
    by (vm_compute; reflexivity).
  destruct (@sweep_visits_product _ _ _ _ _ _ _ _
              toy_py_str toy_str_float toy_build toy_reset toy_gripper
              (toy_step 2) (fun o : nat => o) (fun i : bool => i)
              toy_model_reset (toy_model_step 2) toy_init_stats
              toy_update_stats toy_truncation_success toy_control_mode
              toy_euler2quat toy_pose_mul_q toy_policy toy_policy
              80%nat toy_cli _ _ _ _ _ _
              ltac:(vm_compute; reflexivity) ltac:(vm_compute; reflexivity)
              ltac:(vm_compute; reflexivity) ltac:(vm_compute; reflexivity)
              Hq eq_refl)
    as (_ & Hlen & _ & Hlog & _).
  split; [exact Hlen|exact Hlog].
Defined.

(** The sweep of the default command line runs its 25 episodes. *)
Example toy_sweep_runs :
  match toy_run_inference 2 2 80 toy_cli with
  | Ok st => Nat.eqb (length (snd st)) 25
  | _ => false
  end = true.
Proof. vm_compute. reflexivity. Qed.


(* ------------------------------------------------------------------ *)
(** ** Further properties at work on the toy simulator *)

(** X16.  The arity of a range.  [parse_range_tuple] raises [IndexError]
    exactly when its argument has fewer than three entries, and it never
    looks at entries beyond the third. *)
Theorem parse_range_tuple_arity (t : list float) :
  (parse_range_tuple t = Raise IndexError <-> (length t < 3)%nat)
  /\ (forall a b c rest,
        t = a :: b :: c :: rest ->
        parse_range_tuple t = parse_range_tuple [a; b; c]).
Proof.
  split; [|intros a b c rest ->; reflexivity].
  destruct t as [|a [|b [|c rest]]]; cbn [length];
    try (split; [intros _; lia|reflexivity]).
  split; [|lia]. unfold parse_range_tuple. cbn [getitem nth_error bind].
  unfold py_int, Np.linspace.
  destruct (Prim2SF c) as [s|s| |s mm e]; cbv zeta; cbn [bind];
    try discriminate;
    try match goal with
        | |- context [if (?n <? 0)%Z then _ else _] => destruct (n <? 0)%Z
        end; discriminate.
Qed.

Lemma rollout_frames_witness :
  exists s',
    toy_while_loop 2 2 (env_name (toy_args 80)) 7 (toy_s0 80) = Ok s'
    /\ images s' = [0; 1; 2]%nat
    /\ timestep s' = 2.
Proof.
  eassert (Hex : toy_exec 2 2 (env_name (toy_args 80)) (toy_s0 80) _ _).
  { eapply exec_pass; [reflexivity|vm_compute; reflexivity|].
    eapply exec_pass; [reflexivity|vm_compute; reflexivity|].
    apply exec_exit. reflexivity. }
  destruct (@rollout_frames _ _ _ _ _ _ _ _
              toy_build toy_reset toy_gripper (toy_step 2) (fun o : nat => o)
              (fun i : bool => i) toy_model_reset (toy_model_step 2)
              toy_init_stats toy_update_stats
              0%nat (toy_args 80) (toy_s0 80) _ _ toy_reset_s0 Hex)
    as (Him & _ & Hts & _).
  eexists. split; [vm_compute; reflexivity|].
  split; [exact Him|exact Hts].
Defined.

(** Statistics that count the steps whose info marks success. *)
Definition toy_count_stats (name : string) (st : Dict bool) (i : bool)
  : Dict bool :=
  st ++ [("step_success", i)].

Definition toy_rollout_counting (success_from stop_at : nat) :=
  rollout toy_build toy_reset toy_gripper (toy_step success_from)
          (fun o : nat => o) (fun i : bool => i) toy_model_reset
          (toy_model_step stop_at) toy_init_stats toy_count_stats
          toy_truncation_success.

Definition toy_r3 : Locals ToyEnv nat nat nat bool bool :=
  Eval vm_compute in
    match toy_rollout_counting 2 3 9 0%nat (toy_args 80) with
    | Ok s => s
    | _ => toy_s0 80
    end.

Lemma rollout_stats_fold_witness :
  additional_episode_stats toy_r3
  = [("step_success", false); ("step_success", true); ("step_success", true)]
  /\ exists s0 tr s',
       toy_reset_episode 0%nat (toy_args 80) = Ok s0
       /\ exec toy_gripper (toy_step 2) (fun o : nat => o)
               (fun i : bool => i) (toy_model_step 3) toy_count_stats
               (env_name (toy_args 80)) s0 tr s'
       /\ additional_episode_stats toy_r3
          = fold_left
              (fun st x =>
                 match info x with
                 | Some i => toy_count_stats (env_name (toy_args 80)) st i
                 | None => st
                 end)
              tr (toy_init_stats (env_name (toy_args 80))).
Proof.
  split; [reflexivity|].
  assert (Hr : toy_rollout_counting 2 3 9 0%nat (toy_args 80) = Ok toy_r3)
    by (vm_compute; reflexivity).
  destruct (@rollout_stats_fold _ _ _ _ _ _ _ _
              toy_build toy_reset toy_gripper (toy_step 2) (fun o : nat => o)
              (fun i : bool => i) toy_model_reset (toy_model_step 3)
              toy_init_stats toy_count_stats toy_truncation_success
              9%nat 0%nat (toy_args 80) toy_r3 Hr)
    as (s0 & tr & s' & Hreset & Hex & _ & Hfold).
  exists s0, tr, s'. split; [exact Hreset|]. split; [exact Hex|exact Hfold].
Defined.

Lemma rollout_outcome_last_step_witness :
  exists r, toy_rollout 9 9 5 0%nat (toy_args 3) = Ok r
            /\ success r <> "success".
Proof.
  eassert (Hex : toy_exec 9 9 (env_name (toy_args 3)) (toy_s0 3) _ _).
  { eapply exec_pass; [reflexivity|vm_compute; reflexivity|].
    eapply exec_pass; [reflexivity|vm_compute; reflexivity|].
    eapply exec_pass; [reflexivity|vm_compute; reflexivity|].
    apply exec_exit. reflexivity. }
  assert (Hreset : toy_reset_episode 0%nat (toy_args 3) = Ok (toy_s0 3))
    by reflexivity.
  destruct (@rollout_outcome_last_step _ _ _ _ _ _ _ _
              toy_build toy_reset toy_gripper (toy_step 9) (fun o : nat => o)
              (fun i : bool => i) toy_model_reset (toy_model_step 9)
              toy_init_stats toy_update_stats toy_truncation_success
              0%nat (toy_args 3) (toy_s0 3) _ _ Hreset Hex
              5%nat ltac:(simpl; lia))
    as (r & i & Hr & Hi & _ & Htrunc).
  exists r. split; [exact Hr|].
  intros Hs. apply (Htrunc eq_refl) in Hs. discriminate.
Defined.

(** An environment that never truncates, though it reports [done] at
    every step. *)
Definition toy_step_endless (e : ToyEnv) (v : list float)
  : ToyEnv * StepResult nat bool :=
  ({| steps := S (steps e); step_limit := step_limit e;
      received := [] |},
   {| step_obs := S (steps e);
      step_reward := 0%float;
      step_done := true;
      step_truncated := false;
      step_info := false |}).

(** A policy that never asks to stop. *)
Definition toy_model_never (p : nat) (img : nat) (g : float)
  : nat * (nat * Action) :=
  (S p,
   (S p,
    {| world_vector := [0%float; 0%float; 0%float];
       rot_axangle := [0%float; 0%float; 0%float];
       gripper := [0%float];
       terminate_episode := [0%float] |})).

Lemma while_loop_never_exits_witness :
  while_loop toy_gripper toy_step_endless (fun o : nat => o)
             (fun i : bool => i) toy_model_never toy_update_stats
             "" 1000 (toy_s0 80)
  = Spin.
Proof.
  apply (@while_loop_never_exits _ _ _ _ _ _ _
           toy_gripper toy_step_endless (fun o : nat => o)
           (fun i : bool => i) toy_model_never toy_update_stats ""
           (fun s => predicted_terminated s = false /\ truncated s = false)).
  - intros s [Hp Ht]. split.
    + unfold loop_cond. rewrite Hp, Ht. reflexivity.
    + eexists. split; [reflexivity|]. split; reflexivity.
  - split; reflexivity.
Defined.



Lemma expand_quats_product_witness :
  exists qs,
    expand_quats toy_euler2quat toy_pose_mul_q
      [0%float; 0.5%float; 3%float; 0%float; 0%float; 1%float;
       0%float; 1%float; 2%float]
      [1%float; 0%float; 0%float; 0%float]
    = Ok qs
    /\ length qs = 6%nat
    /\ nth_error qs 3 = Some [1%float; 0.25%float; 0%float; 1%float].
Proof.
  destruct (@expand_quats_product toy_euler2quat toy_pose_mul_q
              [0%float; 0.5%float; 3%float; 0%float; 0%float; 1%float;
               0%float; 1%float; 2%float]
              [1%float; 0%float; 0%float; 0%float]
              [0%float; 0.25%float; 0.5%float] [0%float]
              [0%float; 1%float]
              ltac:(vm_compute; reflexivity) ltac:(vm_compute; reflexivity)
              ltac:(vm_compute; reflexivity))
    as (E & Hlen & Hnth).
  eexists. split; [exact E|]. split.
  - apply (Hlen _ E).
  - apply (@Hnth 1%nat 0%nat 1%nat 0.25%float 0%float 1%float
             eq_refl eq_refl eq_refl _ E).
Defined.

(** No roll value: the pitch count -1, which no range accepts, goes
    unnoticed. *)
Lemma expand_quats_skips_inner_ranges_witness :
  parse_range_tuple [0%float; 0%float; (-1)%float] = Raise ValueError
  /\ expand_quats toy_euler2quat toy_pose_mul_q
       [0%float; 0%float; 0%float; 0%float; 0%float; (-1)%float;
        0%float; 0%float; 1%float]
       [1%float; 0%float; 0%float; 0%float]
     = Ok [].
Proof.
  split; [vm_compute; reflexivity|].
  apply (@expand_quats_skips_inner_ranges toy_euler2quat toy_pose_mul_q).
  left. vm_compute. reflexivity.
Defined.

(** The value lists of the default command line. *)
Definition toy_oxs : list float :=
  Eval vm_compute in
    match parse_range_tuple (obj_init_x_range toy_cli) with
    | Ok l => l
    | _ => []
    end.

Definition toy_oys : list float :=
  Eval vm_compute in
    match parse_range_tuple (obj_init_y_range toy_cli) with
    | Ok l => l
    | _ => []
    end.

Definition toy_qs : list (list float) :=
  Eval vm_compute in
    match expand_quats toy_euler2quat toy_pose_mul_q
            (robot_init_rot_rpy_range toy_cli)
            (robot_init_rot_quat_center toy_cli) with
    | Ok l => l
    | _ => []
    end.

Definition toy_grid : list InitialCondition :=
  Eval vm_compute in
    cartesian_product [0.35%float] [0.2%float] toy_qs toy_oxs toy_oys.

(** A simulator whose step ceiling applies only to objects placed left of
    x = -0.3: elsewhere an episode of a policy that never stops does not
    end. *)
Definition toy_reset_left (e : ToyEnv) (o : ResetOptions) : ToyEnv * nat :=
  ({| steps := 0;
      step_limit :=
        if (hd 0%float (obj_init_xy o) <? -0.3)%float
        then step_limit e else 1000%nat;
      received := [] |}, 0%nat).

Definition toy_main_left :=
  main toy_py_str toy_str_float toy_build toy_reset_left toy_gripper
       (toy_step 9) (fun o : nat => o) (fun i : bool => i)
       toy_model_reset (toy_model_step 99) toy_init_stats
       toy_update_stats toy_truncation_success.

Definition toy_episode_left :=
  episode toy_py_str toy_str_float toy_build toy_reset_left toy_gripper
          (toy_step 9) (fun o : nat => o) (fun i : bool => i)
          toy_model_reset (toy_model_step 99) toy_init_stats
          toy_update_stats toy_truncation_success.

Definition toy_run_inference_left :=
  run_inference toy_py_str toy_str_float toy_build toy_reset_left toy_gripper
    (toy_step 9) (fun o : nat => o) (fun i : bool => i)
    toy_model_reset (toy_model_step 99) toy_init_stats toy_update_stats
    toy_truncation_success toy_control_mode toy_euler2quat toy_pose_mul_q
    toy_policy toy_policy.

(** The default command line with a step ceiling of 3. *)
Definition toy_cli3 : CliArgs bool := {|
  policy_model := policy_model toy_cli;
  cli_ckpt_path := cli_ckpt_path toy_cli;
  cli_env_name := cli_env_name toy_cli;
  cli_scene_name := cli_scene_name toy_cli;
  robot := robot toy_cli;
  gpu_id := gpu_id toy_cli;
  cli_action_scale := cli_action_scale toy_cli;
  cli_control_freq := cli_control_freq toy_cli;
  cli_sim_freq := cli_sim_freq toy_cli;
  cli_max_episode_steps := 3;
  cli_rgb_overlay_path := cli_rgb_overlay_path toy_cli;
  robot_init_x_range := robot_init_x_range toy_cli;
  robot_init_y_range := robot_init_y_range toy_cli;
  robot_init_rot_quat_center := robot_init_rot_quat_center toy_cli;
  robot_init_rot_rpy_range := robot_init_rot_rpy_range toy_cli;
  obj_init_x_range := obj_init_x_range toy_cli;
  obj_init_y_range := obj_init_y_range toy_cli;
  cli_additional_env_build_kwargs := cli_additional_env_build_kwargs toy_cli
|}.

(** The state of the sweep after the five points of the first column. *)
Definition toy_after_first_column : SweepState nat nat nat :=
  Eval vm_compute in
    match for_each (firstn 5 toy_grid)
            (toy_episode_left 10 toy_cli3 (toy_control_mode "")) (0%nat, [])
    with
    | Ok st => st
    | _ => (0%nat, [])
    end.

(** The first column of object positions finishes by truncation; the
    sixth point never ends, and neither does the sweep. *)
Lemma sweep_stops_at_first_failure_witness :
  length (snd toy_after_first_column) = 5%nat
  /\ toy_run_inference_left 10 toy_cli3 = Spin.
Proof.
  split; [reflexivity|].
  destruct (@sweep_stops_at_first_failure _ _ _ _ _ _ _ _
              toy_py_str toy_str_float toy_build toy_reset_left toy_gripper
              (toy_step 9) (fun o : nat => o) (fun i : bool => i)
              toy_model_reset (toy_model_step 99) toy_init_stats
              toy_update_stats toy_truncation_success toy_control_mode
              toy_euler2quat toy_pose_mul_q toy_policy toy_policy
              10%nat toy_cli3 [0.35%float] [0.2%float] toy_oxs toy_oys
              toy_qs 0%nat
              (firstn 5 toy_grid)
              (nth 5 toy_grid
                 {| robot_x := 0%float; robot_y := 0%float;
                    robot_orientation := []; object_x := 0%float;
                    object_y := 0%float |})
              (skipn 6 toy_grid)
              toy_after_first_column
              ltac:(vm_compute; reflexivity) ltac:(vm_compute; reflexivity)
              ltac:(vm_compute; reflexivity) ltac:(vm_compute; reflexivity)
              ltac:(vm_compute; reflexivity) ltac:(vm_compute; reflexivity)
              ltac:(vm_compute; reflexivity) ltac:(vm_compute; reflexivity)
              ltac:(intros r H; vm_compute in H; discriminate))
    as (_ & _ & Hspin).
  apply Hspin. vm_compute. reflexivity.
Defined.

(** An object-x count of 0: the sweep returns at once. *)
Definition toy_cli_empty : CliArgs bool := {|
  policy_model := policy_model toy_cli;
  cli_ckpt_path := cli_ckpt_path toy_cli;
  cli_env_name := cli_env_name toy_cli;
  cli_scene_name := cli_scene_name toy_cli;
  robot := robot toy_cli;
  gpu_id := gpu_id toy_cli;
  cli_action_scale := cli_action_scale toy_cli;
  cli_control_freq := cli_control_freq toy_cli;
  cli_sim_freq := cli_sim_freq toy_cli;
  cli_max_episode_steps := cli_max_episode_steps toy_cli;
  cli_rgb_overlay_path := cli_rgb_overlay_path toy_cli;
  robot_init_x_range := robot_init_x_range toy_cli;
  robot_init_y_range := robot_init_y_range toy_cli;
  robot_init_rot_quat_center := robot_init_rot_quat_center toy_cli;
  robot_init_rot_rpy_range := robot_init_rot_rpy_range toy_cli;
  obj_init_x_range := [(-0.35)%float; (-0.12)%float; 0%float];
  obj_init_y_range := obj_init_y_range toy_cli;
  cli_additional_env_build_kwargs := cli_additional_env_build_kwargs toy_cli
|}.

Lemma sweep_empty_grid_witness :
  toy_run_inference 2 2 80 toy_cli_empty = Ok (0%nat, []).
Proof.
  apply (@sweep_empty_grid _ _ _ _ _ _ _ _
           toy_py_str toy_str_float toy_build toy_reset toy_gripper
           (toy_step 2) (fun o : nat => o) (fun i : bool => i)
           toy_model_reset (toy_model_step 2) toy_init_stats
           toy_update_stats toy_truncation_success toy_control_mode
           toy_euler2quat toy_pose_mul_q toy_policy toy_policy
           80%nat toy_cli_empty [0.35%float] [0.2%float] [] toy_oys toy_qs
           0%nat);
    try (vm_compute; reflexivity).
  right. right. right. left. reflexivity.
Defined.

(** The result of the toy sweep of the default command line. *)
Definition toy_sweep_result : SweepState nat nat nat :=
  Eval vm_compute in
    match toy_run_inference 2 2 80 toy_cli with
    | Ok st => st
    | _ => (0%nat, [])
    end.

(** The third episode of that sweep, rerun from the policy state 7. *)
Definition toy_third_episode : InitialCondition * Artifacts nat nat :=
  Eval vm_compute in
    nth 2 (snd toy_sweep_result)
        ({| robot_x := 0%float; robot_y := 0%float; robot_orientation := [];
            object_x := 0%float; object_y := 0%float |},
         {| video_file := ""; video_frames := []; video_fps := 0;
            actions_dir := ""; actions_file := ""; actions_raw := [];
            actions_frames := [] |}).

Lemma sweep_episodes_independent_witness :
  In toy_third_episode (snd toy_sweep_result)
  /\ exists m1,
       toy_main 2 2 80 7%nat
         (main_args toy_cli (toy_control_mode "") (fst toy_third_episode))
       = Ok (m1, snd toy_third_episode).
Proof.
  assert (Hin : In (fst toy_third_episode, snd toy_third_episode)
                   (snd toy_sweep_result)).
  { right. right. left. reflexivity. }
  split; [exact Hin|].
  apply (@sweep_episodes_independent _ _ _ _ _ _ _ _
           toy_py_str toy_str_float toy_build toy_reset toy_gripper
           (toy_step 2) (fun o : nat => o) (fun i : bool => i)
           toy_model_reset (toy_model_step 2) toy_init_stats
           toy_update_stats toy_truncation_success toy_control_mode
           toy_euler2quat toy_pose_mul_q toy_policy toy_policy
           80%nat toy_cli toy_sweep_result
           ltac:(reflexivity) ltac:(vm_compute; reflexivity)
           (fst toy_third_episode) (snd toy_third_episode) Hin
           7%nat).
Defined.

(** Two initial conditions that differ in the orientation only. *)
Definition toy_ic (q : list float) : InitialCondition := {|
  robot_x := 0.35%float;
  robot_y := 0.2%float;
  robot_orientation := q;
  object_x := (-0.35)%float;
  object_y := (-0.02)%float
|}.

Definition toy_quat_a : list float := [1%float; 0%float; 0%float; 0%float].
Definition toy_quat_b : list float := [0%float; 0%float; 0%float; 1%float].

Definition toy_no_art : Artifacts nat nat :=
  {| video_file := ""; video_frames := []; video_fps := 0;
     actions_dir := ""; actions_file := ""; actions_raw := [];
     actions_frames := [] |}.

Definition toy_art_a : Artifacts nat nat :=
  Eval vm_compute in
    match toy_main 2 2 80 0%nat (main_args toy_cli "mode" (toy_ic toy_quat_a))
    with Ok r => snd r | _ => toy_no_art end.

Definition toy_art_b : Artifacts nat nat :=
  Eval vm_compute in
    match toy_main 2 2 80 0%nat (main_args toy_cli "mode" (toy_ic toy_quat_b))
    with Ok r => snd r | _ => toy_no_art end.

Definition toy_roll_a : Locals ToyEnv nat nat nat bool bool :=
  Eval vm_compute in
    match toy_rollout 2 2 80 0%nat
            (main_args toy_cli "mode" (toy_ic toy_quat_a))
    with Ok s => s | _ => toy_s0 80 end.

Definition toy_roll_b : Locals ToyEnv nat nat nat bool bool :=
  Eval vm_compute in
    match toy_rollout 2 2 80 0%nat
            (main_args toy_cli "mode" (toy_ic toy_quat_b))
    with Ok s => s | _ => toy_s0 80 end.

Lemma orientation_not_in_names_witness :
  toy_quat_a <> toy_quat_b /\ video_file toy_art_a = video_file toy_art_b.
Proof.
  split; [discriminate|].
  assert (Hr1 : toy_rollout 2 2 80 0%nat
                  (main_args toy_cli "mode" (toy_ic toy_quat_a))
                = Ok toy_roll_a) by (vm_compute; reflexivity).
  assert (Hr2 : toy_rollout 2 2 80 0%nat
                  (main_args toy_cli "mode" (toy_ic toy_quat_b))
                = Ok toy_roll_b) by (vm_compute; reflexivity).
  assert (Hm1 : toy_main 2 2 80 0%nat
                  (main_args toy_cli "mode" (toy_ic toy_quat_a))
                = Ok (2%nat, toy_art_a)) by (vm_compute; reflexivity).
  assert (Hm2 : toy_main 2 2 80 0%nat
                  (main_args toy_cli "mode" (toy_ic toy_quat_b))
                = Ok (2%nat, toy_art_b)) by (vm_compute; reflexivity).
  destruct (@orientation_not_in_names _ _ _ _ _ _ _ _
              toy_py_str toy_str_float toy_build toy_reset toy_gripper
              (toy_step 2) (fun o : nat => o) (fun i : bool => i)
              toy_model_reset (toy_model_step 2) toy_init_stats
              toy_update_stats toy_truncation_success
              80%nat toy_cli "mode" (toy_ic toy_quat_a) (toy_ic toy_quat_b)
              0%nat 0%nat 2%nat 2%nat toy_art_a toy_art_b
              toy_roll_a toy_roll_b
              eq_refl eq_refl eq_refl eq_refl Hr1 Hr2
              ltac:(vm_compute; reflexivity) ltac:(vm_compute; reflexivity)
              Hm1 Hm2)
    as (Hv & _).
  exact Hv.
Defined.

Lemma main_artifact_extensions_witness :
  exists stem u,
    video_file toy_art_a = "results/" +++ stem +++ ".mp4"
    /\ actions_file toy_art_a = actions_dir toy_art_a +++ u +++ ".png".
Proof.
  assert (Hm : toy_main 2 2 80 0%nat
                 (main_args toy_cli "mode" (toy_ic toy_quat_a))
               = Ok (2%nat, toy_art_a)) by (vm_compute; reflexivity).
  destruct (@main_artifact_extensions _ _ _ _ _ _ _ _
              toy_py_str toy_str_float toy_build toy_reset toy_gripper
              (toy_step 2) (fun o : nat => o) (fun i : bool => i)
              toy_model_reset (toy_model_step 2) toy_init_stats
              toy_update_stats toy_truncation_success
              80%nat 0%nat 2%nat _ toy_art_a Hm)
    as ((stem & Hstem) & _ & (u & Hu) & _).
  exists stem, u. split; [exact Hstem|exact Hu].
Defined.
